(** * Strava activities updater: a shallow embedding and its properties

    The development follows the two scripts of the repository:

    - [strava-checker.py]: [get_token], [update_env_file],
      [load_existing_activities], [save_activities], [activity_to_dict]
      and [main] (one sync run);
    - [authorize.py]: [update_env_file] (the same text as in the other
      script) and [main] (the one-time authorization flow).

    Python's exceptions are explicit results, dictionaries are finite maps
    with string keys, files are explicit state that each function takes and
    returns, and the remote provider is a record of functions. *)

From Stdlib Require Import ZArith String Ascii List Sorted Permutation Lia.
From Stdlib Require Import Floats.SpecFloat.
From stdpp Require Import base option list sorting gmap strings pretty.

(** ** Python results *)

(** The exception classes the scripts can tell apart.  [OtherError] stands
    for every other subclass of [Exception] (network and OS failures). *)
Inductive exn : Set :=
  | AttributeError
  | TypeError
  | ValueError
  | KeyError
  | OverflowError
  | QueueEmpty
  | OtherError.

Global Instance exn_eq_dec : EqDecision exn.
Proof. solve_decision. Defined.

(** The outcome of evaluating a Python expression: a value or a raised
    exception. *)
Inductive pyresult (A : Type) : Type :=
  | Ok (a : A)
  | Raise (e : exn).
Global Arguments Ok {A} a.
Global Arguments Raise {A} e.

Global Instance pyresult_ret : MRet pyresult := λ A a, Ok a.
Global Instance pyresult_bind : MBind pyresult := λ A B f m,
  match m with
  | Ok a => f a
  | Raise e => Raise e
  end.
Global Instance pyresult_fmap : FMap pyresult := λ A B f m,
  match m with
  | Ok a => Ok (f a)
  | Raise e => Raise e
  end.

Definition is_ok {A} (m : pyresult A) : bool :=
  match m with
  | Ok _ => true
  | Raise _ => false
  end.

(** ** JSON values and stored records *)

Global Instance spec_float_eq_dec : EqDecision spec_float.
Proof. solve_decision. Defined.

(** The values a field of a stored record holds.  [activity_to_dict] only
    produces integers, floats, strings, booleans and [None]; the model of
    the activities file is restricted to such scalar fields.  Floats are
    IEEE doubles in the Standard Library's [spec_float] representation. *)
Inductive json : Set :=
  | JNull
  | JBool (b : bool)
  | JInt (n : Z)
  | JFloat (f : spec_float)
  | JStr (s : string).

Global Instance json_eq_dec : EqDecision json.
Proof. solve_decision. Defined.

(** A record of the activities file: a Python [dict] with string keys. *)
Abbreviation record := (gmap string json).

(** *** Python's [==] and [<] on these values *)

(** Python compares [bool], [int] and [float] numerically and exactly. *)
Definition Z_of_bool (b : bool) : Z := if b then 1%Z else 0%Z.

Definition compare_Z_float (n : Z) (f : spec_float) : option comparison :=
  match f with
  | S754_nan => None
  | S754_zero _ => Some (n ?= 0)%Z
  | S754_infinity s => Some (if s then Gt else Lt)
  | S754_finite s m e =>
      let sm := if s then Z.neg m else Z.pos m in
      Some (if (0 <=? e)%Z then (n ?= sm * 2 ^ e)%Z
            else (n * 2 ^ (- e) ?= sm)%Z)
  end.

Definition py_compare_num (a b : json) : option (option comparison) :=
  let num v :=
    match v with
    | JBool b => Some (inl (Z_of_bool b))
    | JInt n => Some (inl n)
    | JFloat f => Some (inr f)
    | _ => None
    end in
  match num a, num b with
  | Some (inl x), Some (inl y) => Some (Some (x ?= y)%Z)
  | Some (inl x), Some (inr g) => Some (compare_Z_float x g)
  | Some (inr f), Some (inl y) => Some (CompOpp <$> compare_Z_float y f)
  | Some (inr f), Some (inr g) => Some (SFcompare f g)
  | _, _ => None
  end.

(** [a == b]; never raises on these values. *)
Definition py_eq (a b : json) : bool :=
  match a, b with
  | JNull, JNull => true
  | JStr s, JStr t => String.eqb s t
  | _, _ =>
      match py_compare_num a b with
      | Some (Some Eq) => true
      | _ => false
      end
  end.

(** [a < b]: numbers among themselves, strings among themselves by code
    point (a [str] is modelled by its UTF-8 bytes, whose bytewise order is
    the code point order); anything else is a [TypeError]. *)
Definition py_lt (a b : json) : pyresult bool :=
  match a, b with
  | JStr s, JStr t => Ok (String.ltb s t)
  | _, _ =>
      match py_compare_num a b with
      | Some (Some Lt) => Ok true
      | Some _ => Ok false
      | None => Raise TypeError
      end
  end.

(** [v in ids] for a collection of hashable values. *)
Definition py_in (v : json) (ids : list json) : bool :=
  existsb (py_eq v) ids.

(** *** [list.sort(key=...)]

    Python's sort is stable and only uses [<] on the keys.  The model is a
    stable insertion sort with the same two properties: every comparison
    that raises makes the sort raise, and a list of at most one element is
    never compared.  On keys that are all strings both give the one stable
    ordering; on two or more keys that are not all of one kind both raise,
    since either compares every element with some other. *)
Section PySort.
Context {A : Type} (key : A → json).

Fixpoint py_insert (x : A) (l : list A) : pyresult (list A) :=
  match l with
  | [] => Ok [x]
  | y :: l' =>
      b ← py_lt (key y) (key x);
      if b : bool then l'' ← py_insert x l'; Ok (y :: l'')
      else Ok (x :: y :: l')
  end.

Fixpoint py_sort (l : list A) : pyresult (list A) :=
  match l with
  | [] => Ok []
  | x :: l' => s ← py_sort l'; py_insert x s
  end.
End PySort.

(** ** Python objects handed over by the provider's client library *)

(** An attribute value of an activity is seen by the script only through the
    conversions it applies to it: [int(v)], [float(v)], [str(v)],
    [bool(v)] (also the truth test of [if v]) and [v is not None]. *)
Record pyobj : Set := {
  to_int : pyresult Z;
  to_float : pyresult spec_float;
  to_str : pyresult string;
  to_bool : pyresult bool
}.

Inductive pyval : Set :=
  | PyNone
  | PyObject (o : pyobj).

Definition py_int (v : pyval) : pyresult Z :=
  match v with
  | PyNone => Raise TypeError
  | PyObject o => to_int o
  end.

Definition py_float (v : pyval) : pyresult spec_float :=
  match v with
  | PyNone => Raise TypeError
  | PyObject o => to_float o
  end.

Definition py_str (v : pyval) : pyresult string :=
  match v with
  | PyNone => Ok "None"
  | PyObject o => to_str o
  end.

Definition py_bool (v : pyval) : pyresult bool :=
  match v with
  | PyNone => Ok false
  | PyObject o => to_bool o
  end.

(** An activity object of the provider's client library.  The script
    reads [id], [name], [start_date_local] and [type] unguarded, and the
    library's activity class declares them, so they are fields; every
    other attribute is probed with [hasattr] first and lives in a finite
    map from attribute names to values.  An object that lacks one of the
    four is not an activity and is outside the model. *)
Record activity : Set := {
  act_id : pyval;
  act_name : pyval;
  act_start_date_local : pyval;
  act_type : pyval;
  act_attrs : gmap string pyval
}.

Definition hasattr (a : activity) (attr : string) : bool :=
  bool_decide (is_Some (act_attrs a !! attr)).

Definition getattr (a : activity) (attr : string) : pyresult pyval :=
  match act_attrs a !! attr with
  | Some v => Ok v
  | None => Raise AttributeError
  end.

(** ** [activity_to_dict] *)

Definition float_zero : spec_float := S754_zero false.

(** [conv(activity.attr) if hasattr(activity, attr) and activity.attr
    else zero], the shape of the three numeric core fields. *)
Definition core_number {A} (conv : pyval → pyresult A) (zero : A)
    (a : activity) (attr : string) : pyresult A :=
  if hasattr a attr then
    v ← getattr a attr;
    t ← py_bool v;
    if t : bool then conv v else Ok zero
  else Ok zero.

(** The dictionary literal of the [try] block. *)
Definition base_dict (a : activity) : pyresult record :=
  i ← py_int (act_id a);
  n ← py_str (act_name a);
  s ← py_str (act_start_date_local a);
  t ← py_str (act_type a);
  d ← core_number py_float float_zero a "distance";
  m ← core_number py_int 0%Z a "moving_time";
  e ← core_number py_int 0%Z a "elapsed_time";
  Ok (<["elapsed_time" := JInt e]> (<["moving_time" := JInt m]>
     (<["distance" := JFloat d]> (<["type" := JStr t]>
     (<["start_date_local" := JStr s]> (<["name" := JStr n]>
     (<["id" := JInt i]> ∅))))))).

(** The dictionary literal of the [except] block. *)
Definition minimal_dict (a : activity) : pyresult record :=
  i ← py_int (act_id a);
  n ← py_str (act_name a);
  s ← py_str (act_start_date_local a);
  t ← py_str (act_type a);
  Ok (<["elapsed_time" := JInt 0]> (<["moving_time" := JInt 0]>
     (<["distance" := JFloat float_zero]> (<["type" := JStr t]>
     (<["start_date_local" := JStr s]> (<["name" := JStr n]>
     (<["id" := JInt i]> ∅))))))).

Definition float_properties : list (string * string) :=
  [ ("total_elevation_gain", "total_elevation_gain");
    ("average_speed", "average_speed");
    ("max_speed", "max_speed");
    ("average_heartrate", "average_heartrate");
    ("max_heartrate", "max_heartrate");
    ("average_cadence", "average_cadence");
    ("average_watts", "average_watts");
    ("calories", "calories") ].

Definition int_properties : list (string * string) :=
  [ ("kudos_count", "kudos_count");
    ("achievement_count", "achievement_count");
    ("athlete_count", "athlete_count") ].

Definition str_properties : list (string * string) :=
  [ ("gear_id", "gear_id");
    ("device_name", "device_name") ].

Definition bool_properties : list (string * string) :=
  [ ("private", "private");
    ("commute", "commute") ].

(** [except (AttributeError, TypeError, ValueError)]. *)
Definition field_error (e : exn) : bool :=
  match e with
  | AttributeError | TypeError | ValueError => true
  | _ => false
  end.

(** The body of each of the four loops over optional properties:
    the value stored under the key, or the exception that escapes the
    inner [try]. *)
Definition optional_value (conv : pyval → pyresult json) (dflt : json)
    (a : activity) (attr : string) : pyresult json :=
  let attempt :=
    if hasattr a attr then
      value ← getattr a attr;
      match value with
      | PyNone => Ok dflt
      | _ => conv value
      end
    else Ok dflt in
  match attempt with
  | Ok j => Ok j
  | Raise e => if field_error e then Ok dflt else Raise e
  end.

(** [for key, attr in properties.items(): ... result[key] = ...]. *)
Fixpoint set_properties (conv : pyval → pyresult json) (dflt : json)
    (a : activity) (properties : list (string * string))
    (result : record) : pyresult record :=
  match properties with
  | [] => Ok result
  | (key, attr) :: rest =>
      j ← optional_value conv dflt a attr;
      set_properties conv dflt a rest (<[key := j]> result)
  end.

Definition conv_float (v : pyval) : pyresult json := JFloat <$> py_float v.
Definition conv_int (v : pyval) : pyresult json := JInt <$> py_int v.
Definition conv_str (v : pyval) : pyresult json := JStr <$> py_str v.
Definition conv_bool (v : pyval) : pyresult json := JBool <$> py_bool v.

(** The [try] block of [activity_to_dict]. *)
Definition full_dict (a : activity) : pyresult record :=
  result ← base_dict a;
  result ← set_properties conv_float JNull a float_properties result;
  result ← set_properties conv_int (JInt 0) a int_properties result;
  result ← set_properties conv_str JNull a str_properties result;
  set_properties conv_bool (JBool false) a bool_properties result.

(** The [try] block, and the [except] block when it raises.  The [except]
    block first logs a message that shows [activity.id]; logging is not
    part of the model, which takes the message to be formed without an
    exception, as it is for the integers of the client library. *)
Definition activity_to_dict (a : activity) : pyresult record :=
  match full_dict a with
  | Ok result => Ok result
  | Raise _ => minimal_dict a
  end.

(** ** The credentials file: [update_env_file]

    The function has the same text in both scripts.  A file is the text
    it holds, as written; [None] is a file that does not exist.  Both
    scripts open the file in text mode with the default [newline]
    argument: what is read has every line ending translated to a line
    feed, and a line feed is written as the line separator of the system,
    taken to be the line feed itself. *)

Definition newline : ascii := ascii_of_nat 10.
Definition carriage_return : ascii := ascii_of_nat 13.
Definition nl : string := String newline "".

(** What a read in text mode makes of the text of the file: a carriage
    return followed by a line feed, and a carriage return alone, each
    become a line feed.  [pending] tells that the character before was a
    carriage return, already translated. *)
Fixpoint translate (pending : bool) (s : string) : string :=
  match s with
  | "" => ""
  | String c rest =>
      if Ascii.eqb c carriage_return then String newline (translate true rest)
      else if Ascii.eqb c newline && pending then translate false rest
      else String c (translate false rest)
  end.

Definition universal_newlines (s : string) : string := translate false s.

(** The lines of a text whose line endings are line feeds, each with its
    terminating line feed; only the last one can lack it. *)
Fixpoint cut_lines (s : string) : list string :=
  match s with
  | "" => []
  | String c s' =>
      if Ascii.eqb c newline then String c "" :: cut_lines s'
      else
        match cut_lines s' with
        | [] => [String c ""]
        | l :: ls => String c l :: ls
        end
  end.

(** [file.readlines()] on a file opened with mode ['r']. *)
Definition readlines (s : string) : list string :=
  cut_lines (universal_newlines s).

(** [file.writelines(lines)] on a file opened with mode ['w']. *)
Definition writelines (lines : list string) : string :=
  foldr String.append "" lines.

(** The dictionary the provider's client returns for a token exchange or
    a refresh, as far as the scripts read it: it always has the two
    keys. *)
Record token_response : Set := {
  access_token : string;
  refresh_token : string
}.

Definition access_line (t : token_response) : string :=
  "ACCESS_TOKEN=" +:+ access_token t +:+ nl.
Definition refresh_line (t : token_response) : string :=
  "REFRESH_TOKEN=" +:+ refresh_token t +:+ nl.

(** [line.startswith(p)]. *)
Definition startswith (line p : string) : bool := String.prefix p line.

(** The state of the loop: [new_lines] and the two flags of
    [tokens_updated]. *)
Record env_loop : Set := {
  new_lines : list string;
  access_updated : bool;
  refresh_updated : bool
}.

Definition env_step (t : token_response) (st : env_loop) (line : string)
    : env_loop :=
  if startswith line "ACCESS_TOKEN=" then
    {| new_lines := new_lines st ++ [access_line t];
       access_updated := true;
       refresh_updated := refresh_updated st |}
  else if startswith line "REFRESH_TOKEN=" then
    {| new_lines := new_lines st ++ [refresh_line t];
       access_updated := access_updated st;
       refresh_updated := true |}
  else
    {| new_lines := new_lines st ++ [line];
       access_updated := access_updated st;
       refresh_updated := refresh_updated st |}.

(** From the lines read to the lines written. *)
Definition updated_lines (t : token_response) (lines : list string)
    : list string :=
  let st := foldl (env_step t)
              {| new_lines := []; access_updated := false;
                 refresh_updated := false |} lines in
  let out := new_lines st in
  let out := if access_updated st then out else out ++ [access_line t] in
  if refresh_updated st then out else out ++ [refresh_line t].

Definition update_env_file (env : option string) (t : token_response)
    : option string :=
  let lines :=
    match env with
    | Some text => readlines text
    | None => []
    end in
  Some (writelines (updated_lines t lines)).

(** *** Reading the credentials file

    The scripts read the file through [load_dotenv] of the package
    [python-dotenv], whose text is not among the sources.  The reader
    below follows the format the specification gives for the file. *)

(** Modelled from the spec: the line without its line feed; part of the
    reader of the credentials file, which the sources call as
    [load_dotenv] and do not contain. *)
Fixpoint chomp (line : string) : string :=
  match line with
  | "" => ""
  | String c rest =>
      if Ascii.eqb c newline then
        match rest with
        | "" => ""
        | _ => String c (chomp rest)
        end
      else String c (chomp rest)
  end.

(** Modelled from the spec: the text before the first [=] and the text
    after it; part of the reader of the credentials file, which the
    sources call as [load_dotenv] and do not contain. *)
Fixpoint split_eq (s : string) : option (string * string) :=
  match s with
  | "" => None
  | String c rest =>
      if Ascii.eqb c "="%char then Some ("", rest)
      else
        match split_eq rest with
        | Some (k, v) => Some (String c k, v)
        | None => None
        end
  end.

(** Modelled from the spec: a line of the credentials file is
    [KEY=VALUE] (section 6: flat text, one [KEY=VALUE] per line); the key
    is the text before the first [=], the value the rest of the line.
    What is missing from the sources is the parser of [load_dotenv]. *)
Definition parse_line (line : string) : option (string * string) :=
  split_eq (chomp line).

(** Modelled from the spec: the key of a line of the credentials file, in
    the [KEY=VALUE] format of section 6; the parser of [load_dotenv] is
    not among the sources. *)
Definition line_key (line : string) : option string :=
  fst <$> parse_line line.

(** Modelled from the spec: one line read, after which its key has its
    value; the parser of [load_dotenv] is not among the sources. *)
Definition bind_line (env : gmap string string) (line : string)
    : gmap string string :=
  match parse_line line with
  | Some (k, v) => <[k := v]> env
  | None => env
  end.

(** Modelled from the spec: the variables a later start reads from the
    credentials file, one [KEY=VALUE] per line (section 6), a later line
    overriding an earlier one with the same key.  What is missing from
    the sources is [load_dotenv] of [python-dotenv], which also has
    quoting, comments, [export] and interpolation; the statements about
    reading are made for values of letters and digits, which these leave
    alone. *)
Definition read_env (text : string) : gmap string string :=
  foldl bind_line ∅ (readlines text).

(** ** The activities file *)

(** What [activities.json] holds, as [json.load] finds it: nothing (no
    file); a text that [json.load] rejects with [json.JSONDecodeError]
    (an empty file, malformed JSON); a content on which [json.load] raises
    another exception [e]; or a JSON array of objects, kept as the list
    [json.load] returns for it.  The other exceptions are the
    [UnicodeDecodeError] of a file whose bytes are not text in the
    encoding of the locale (a subclass of [ValueError], so [ValueError]
    here) and the [RecursionError] of a text nested too deeply for the
    parser ([OtherError]).  [json.dump] followed by [json.load] is the
    identity on lists of records.  A JSON document of another shape (a
    top-level value that is not an array, an element that is not an
    object, a field that holds an array or an object) is outside the
    model; the script writes none. *)
Inductive store_file : Type :=
  | NoFile
  | NotJson
  | Unreadable (e : exn)
  | JsonArray (records : list record).

(** Only [json.JSONDecodeError] is caught. *)
Definition load_existing_activities (f : store_file)
    : pyresult (list record) :=
  match f with
  | NoFile => Ok []
  | JsonArray records => Ok records
  | NotJson => Ok []
  | Unreadable e => Raise e
  end.

Definition save_activities (activities : list record) : store_file :=
  JsonArray activities.

(** The two files the sync run touches.  The credentials file is taken to
    be readable and writable: [update_env_file] does not raise. *)
Record files : Type := {
  env_file : option string;
  activities_file : store_file
}.

(** ** One sync run: [get_token] and [main] of [strava-checker.py] *)

(** The module-level configuration read from the environment. *)
Record config : Set := {
  CLIENT_ID : option string;
  CLIENT_SECRET : option string;
  ACCESS_TOKEN : option string;
  REFRESH_TOKEN : option string
}.

(** Truth value of what [os.getenv] returns. *)
Definition truthy (v : option string) : bool :=
  match v with
  | Some s => negb (String.eqb s "")
  | None => false
  end.

Record cli_args : Set := {
  full_refresh : bool;
  limit : Z
}.

(** The provider's client, as far as the sync run uses it. *)
Record client : Type := {
  refresh_access_token :
    option string → option string → option string → pyresult token_response;
  get_activities : string → Z → pyresult (list activity)
}.

Definition get_token (cfg : config) (c : client) (fs : files)
    : files * pyresult string :=
  if truthy (REFRESH_TOKEN cfg) then
    match refresh_access_token c (CLIENT_ID cfg) (CLIENT_SECRET cfg)
            (REFRESH_TOKEN cfg) with
    | Ok refresh_response =>
        ({| env_file := update_env_file (env_file fs) refresh_response;
            activities_file := activities_file fs |},
         Ok (access_token refresh_response))
    | Raise _ => (fs, Raise ValueError)
    end
  else (fs, Raise ValueError).

(** [{activity.get('id') for activity in existing_activities
      if 'id' in activity}]. *)
Definition existing_ids (existing_activities : list record) : list json :=
  omap (λ r : record, r !! "id") existing_activities.

(** [d[k]]. *)
Definition getitem (d : record) (k : string) : pyresult json :=
  match d !! k with
  | Some v => Ok v
  | None => Raise KeyError
  end.

(** The loop that builds [new_activities]; an activity whose conversion
    raises is skipped, after a warning that shows [activity.id] and that
    is taken to be formed without an exception, as in
    [activity_to_dict]. *)
Fixpoint collect_new (ids : list json) (strava_activities : list activity)
    : list record :=
  match strava_activities with
  | [] => []
  | a :: rest =>
      match (d ← activity_to_dict a; i ← getitem d "id"; Ok (d, i)) with
      | Ok (activity_dict, i) =>
          if py_in i ids then collect_new ids rest
          else activity_dict :: collect_new ids rest
      | Raise _ => collect_new ids rest
      end
  end.

(** [lambda x: x.get('start_date_local', '')]. *)
Definition sort_key (x : record) : json :=
  default (JStr "") (x !! "start_date_local").

(** The part of [main] after the fetch: what is to be saved, if anything. *)
Definition process_activities (full : bool) (f : store_file)
    (strava_activities : list activity) : pyresult (option (list record)) :=
  existing_activities ←
    (if full then Ok [] else load_existing_activities f);
  let ids := if full then [] else existing_ids existing_activities in
  let new_activities := collect_new ids strava_activities in
  if negb (bool_decide (new_activities = [])) || full then
    let updated_activities :=
      if full then new_activities
      else existing_activities ++ new_activities in
    sorted ← py_sort sort_key updated_activities;
    Ok (Some sorted)
  else Ok None.

(** How a run ends, by the message it logs last. *)
Inductive outcome : Set :=
  | ConfigurationError
  | ErrorOccurred (e : exn)
  | FetchFailed (e : exn)
  | NoNewActivities
  | Updated.

(** The two handlers at the end of [main]. *)
Definition handler (e : exn) : outcome :=
  match e with
  | ValueError => ConfigurationError
  | _ => ErrorOccurred e
  end.

Definition main (cfg : config) (args : cli_args) (c : client) (fs : files)
    : files * outcome :=
  if negb (truthy (CLIENT_ID cfg) && truthy (CLIENT_SECRET cfg)) then
    (fs, handler ValueError)
  else
    let '(fs, token) := get_token cfg c fs in
    match token with
    | Raise e => (fs, handler e)
    | Ok token =>
        match get_activities c token (limit args) with
        | Raise e => (fs, FetchFailed e)
        | Ok strava_activities =>
            match process_activities (full_refresh args)
                    (activities_file fs) strava_activities with
            | Raise e => (fs, handler e)
            | Ok None => (fs, NoNewActivities)
            | Ok (Some updated_activities) =>
                ({| env_file := env_file fs;
                    activities_file := save_activities updated_activities |},
                 Updated)
            end
        end
    end.

(** ** The authorization flow: [main] of [authorize.py] *)

Module Authorize.

(** What the flow can change: whether the callback listener holds its
    port, the local variable [server], and the credentials file. *)
Record state : Set := {
  listening : bool;
  server : bool;
  credentials : option string
}.

(** The surroundings of the flow.  [queue_get timeout] is what
    [auth_queue.get(timeout=timeout)] finds: the first code the handler
    thread put on the queue before [timeout] seconds have passed, or
    nothing. *)
Record world : Type := {
  bind_port : Z → pyresult unit;
  authorization_url : option string → string → pyresult string;
  webbrowser_open : string → pyresult unit;
  queue_get : Z → option string;
  exchange_code_for_token :
    option string → option string → string → pyresult token_response
}.

(** Statements of the flow: state passing with exceptions. *)
Definition flow (A : Type) : Type := state → state * pyresult A.

Global Instance flow_ret : MRet flow := λ A a st, (st, Ok a).
Global Instance flow_bind : MBind flow := λ A B f m st,
  match m st with
  | (st', Ok a) => f a st'
  | (st', Raise e) => (st', Raise e)
  end.

Definition call {A} (r : pyresult A) : flow A := λ st, (st, r).

(** [try: body finally: cleanup]. *)
Definition try_finally {A} (body : flow A) (cleanup : flow unit) : flow A :=
  λ st,
    let '(st1, r) := body st in
    match cleanup st1 with
    | (st2, Ok _) => (st2, r)
    | (st2, Raise e) => (st2, Raise e)
    end.

(** [create_local_server]: binding the port can fail; otherwise the
    listener thread runs and the handle is stored in [server]. *)
Definition create_local_server (w : world) (port : Z) : flow unit := λ st,
  match bind_port w port with
  | Ok _ =>
      ({| listening := true; server := true;
          credentials := credentials st |}, Ok ())
  | Raise e => (st, Raise e)
  end.

(** [if server: server.shutdown(); server.server_close()]. *)
Definition stop_server : flow unit := λ st,
  if server st then
    ({| listening := false; server := server st;
        credentials := credentials st |}, Ok ())
  else (st, Ok ()).

Definition write_credentials (t : token_response) : flow unit := λ st,
  ({| listening := listening st; server := server st;
      credentials := update_env_file (credentials st) t |}, Ok ()).

Definition wait_for_code (w : world) (timeout : Z) : flow string :=
  call (match queue_get w timeout with
        | Some code => Ok code
        | None => Raise QueueEmpty
        end).

Definition main (cfg : config) (w : world) : flow unit :=
  if negb (truthy (CLIENT_ID cfg) && truthy (CLIENT_SECRET cfg)) then
    call (Raise ValueError)
  else
    try_finally
      (let port := 8000%Z in
       _ ← create_local_server w port;
       auth_url ← call (authorization_url w (CLIENT_ID cfg)
                          ("http://localhost:" +:+ pretty port));
       _ ← call (webbrowser_open w auth_url);
       code ← wait_for_code w 60;
       token_response ← call (exchange_code_for_token w (CLIENT_ID cfg)
                                (CLIENT_SECRET cfg) code);
       write_credentials token_response)
      stop_server.

End Authorize.

(** ** Further functions of the scripts *)

(** *** [refresh_access_token] of [strava-checker.py]

    The function refreshes without looking at [REFRESH_TOKEN] first and
    without a [try]: what the provider raises is what it raises. *)
Module Checker.

Definition refresh_access_token (cfg : config) (c : client) (fs : files)
    : files * pyresult string :=
  match refresh_access_token c (CLIENT_ID cfg) (CLIENT_SECRET cfg)
          (REFRESH_TOKEN cfg) with
  | Ok refresh_response =>
      ({| env_file := update_env_file (env_file fs) refresh_response;
          activities_file := activities_file fs |},
       Ok (access_token refresh_response))
  | Raise e => (fs, Raise e)
  end.

End Checker.

(** *** The request handler of [create_local_server]

    [do_GET] is the same in both scripts.  Its input is
    [query_components], what [urllib.parse.parse_qs] makes of the query of
    the request path: a dictionary from parameter names to the lists of
    their values.  [auth_queue] is [None] (the default argument) or a
    queue, kept as the list of the items put and not yet taken, oldest
    first. *)
Module OAuthHandler.

Record response : Set := {
  status : Z;
  content_type : string;
  body : string
}.

(** What one request leaves behind: the response sent, the queue, and the
    exception that ends the handler, if any. *)
Record handled : Set := {
  sent : response;
  queue : option (list string);
  raised : pyresult unit
}.

Definition do_GET (auth_queue : option (list string))
    (query_components : gmap string (list string)) : handled :=
  let page :=
    {| status := 200;
       content_type := "text/html";
       body := "Authorization successful! You can close this window." |} in
  match auth_queue with
  | Some items =>
      match query_components !! "code" with
      | Some (code :: _) =>
          {| sent := page; queue := Some (items ++ [code]); raised := Ok () |}
      | Some [] =>
          {| sent := page; queue := Some items; raised := Raise OtherError |}
      | None =>
          {| sent := page; queue := Some items; raised := Ok () |}
      end
  | None => {| sent := page; queue := None; raised := Ok () |}
  end.

(** The listener serves the requests one after the other. *)
Definition serve (auth_queue : option (list string))
    (requests : list (gmap string (list string))) : option (list string) :=
  foldl (λ q request, queue (do_GET q request)) auth_queue requests.

End OAuthHandler.

(** ** Vocabulary of the statements *)

(** *** Activities and records *)

(** The value is a string. *)
Definition is_str (j : json) : bool :=
  match j with
  | JStr _ => true
  | _ => false
  end.

(** Two elements in non-decreasing order of their string keys. *)
Definition str_le {A : Type} (key : A → json) (x y : A) : Prop :=
  ∃ s t, key x = JStr s ∧ key y = JStr t ∧ (s ≤ t)%string.

(** Records in non-decreasing order of [start_date_local], compared as
    strings; a record without the key counts as the empty string. *)
Definition by_start_date : record → record → Prop := str_le sort_key.

(** The normalized records of a fetch: the activities whose conversion
    does not raise, in the order fetched. *)
Definition normalized (fetched : list activity) : list record :=
  omap (λ a, match activity_to_dict a with
             | Ok d => Some d
             | Raise _ => None
             end) fetched.

(** [int(activity.id)], when it converts. *)
Definition activity_id (a : activity) : option Z :=
  match py_int (act_id a) with
  | Ok n => Some n
  | Raise _ => None
  end.

(** What an optional field holds when no exception escapes its loop: the
    converted attribute, or the default when the attribute is absent, is
    [None], or fails to convert. *)
Definition defaulted (conv : pyval → pyresult json) (dflt : json)
    (v : option pyval) : json :=
  match v with
  | None => dflt
  | Some PyNone => dflt
  | Some v =>
      match conv v with
      | Ok j => j
      | Raise _ => dflt
      end
  end.

(** The conversion of the attribute raises an exception that the inner
    [try] does not catch. *)
Definition escapes (conv : pyval → pyresult json) (a : activity)
    (attr : string) : bool :=
  match act_attrs a !! attr with
  | Some PyNone => false
  | Some v =>
      match conv v with
      | Ok _ => false
      | Raise e => negb (field_error e)
      end
  | None => false
  end.

Definition contained (conv : pyval → pyresult json) (a : activity)
    (properties : list (string * string)) : bool :=
  forallb (λ p, negb (escapes conv a p.2)) properties.

(** *** Runs *)

(** The run obtains a token and its fetch returns [fetched]. *)
Definition fetches (cfg : config) (args : cli_args) (c : client)
    (fetched : list activity) : Prop :=
  truthy (CLIENT_ID cfg) = true ∧ truthy (CLIENT_SECRET cfg) = true ∧
  truthy (REFRESH_TOKEN cfg) = true ∧
  ∃ t, refresh_access_token c (CLIENT_ID cfg) (CLIENT_SECRET cfg)
         (REFRESH_TOKEN cfg) = Ok t ∧
       get_activities c (access_token t) (limit args) = Ok fetched.

(** No credentials file and no activities file. *)
Definition empty_files : files :=
  {| env_file := None; activities_file := NoFile |}.

(** The state in which the authorization flow starts. *)
Definition starting (creds : option string) : Authorize.state :=
  {| Authorize.listening := false; Authorize.server := false;
     Authorize.credentials := creds |}.

(** *** Lines of the credentials file *)

(** The lines [update_env_file] reads. *)
Definition lines_of (env : option string) : list string :=
  match env with
  | Some text => readlines text
  | None => []
  end.

(** No line ending in the string: neither a line feed nor a carriage
    return. *)
Fixpoint no_newline (s : string) : bool :=
  match s with
  | "" => true
  | String c rest =>
      negb (Ascii.eqb c newline) && negb (Ascii.eqb c carriage_return)
      && no_newline rest
  end.

(** A line with exactly one newline, at its end. *)
Fixpoint complete (line : string) : bool :=
  match line with
  | "" => false
  | String c rest =>
      if Ascii.eqb c newline then String.eqb rest "" else complete rest
  end.

(** The lines the loop rewrites, and what it writes for a line. *)
Definition is_access (line : string) : bool := startswith line "ACCESS_TOKEN=".
Definition is_refresh (line : string) : bool :=
  startswith line "REFRESH_TOKEN=".
Definition is_token_line (line : string) : bool :=
  is_access line || is_refresh line.

Definition replaced (t : token_response) (line : string) : string :=
  if is_access line then access_line t
  else if is_refresh line then refresh_line t
  else line.

(** A key: no line ending and no [=] in it. *)
Fixpoint key_like (k : string) : bool :=
  match k with
  | "" => true
  | String c rest =>
      negb (Ascii.eqb c newline) && negb (Ascii.eqb c carriage_return)
      && negb (Ascii.eqb c "=") && key_like rest
  end.

(** A letter or a digit. *)
Definition alphanumeric (c : ascii) : bool :=
  let n := nat_of_ascii c in
  ((48 <=? n) && (n <=? 57)) || ((65 <=? n) && (n <=? 90))
  || ((97 <=? n) && (n <=? 122)).

(** A value of letters and digits only, as the provider's tokens are. *)
Fixpoint plain (s : string) : bool :=
  match s with
  | "" => true
  | String c rest => alphanumeric c && plain rest
  end.

(** No carriage return in the string. *)
Fixpoint no_return (s : string) : bool :=
  match s with
  | "" => true
  | String c rest => negb (Ascii.eqb c carriage_return) && no_return rest
  end.

(** *** Further vocabulary *)

(** The id of the record is among [ids], by Python's [in]. *)
Definition record_known (ids : list json) (d : record) : bool :=
  match d !! "id" with
  | Some i => py_in i ids
  | None => false
  end.

(** The keys of the required core and of the optional properties. *)
Definition core_keys : list string :=
  ["id"; "name"; "start_date_local"; "type"; "distance"; "moving_time";
   "elapsed_time"].

Definition optional_keys : list string :=
  (float_properties ++ int_properties ++ str_properties
   ++ bool_properties).*1.

(** The type of value each key of a record is to hold. *)
Definition field_ok (k : string) (v : json) : bool :=
  if bool_decide (k ∈ ["id"; "moving_time"; "elapsed_time"]
                      ++ int_properties.*1) then
    match v with JInt _ => true | _ => false end
  else if bool_decide (k ∈ ["name"; "start_date_local"; "type"]) then
    match v with JStr _ => true | _ => false end
  else if bool_decide (k = "distance") then
    match v with JFloat _ => true | _ => false end
  else if bool_decide (k ∈ float_properties.*1) then
    match v with JNull | JFloat _ => true | _ => false end
  else if bool_decide (k ∈ str_properties.*1) then
    match v with JNull | JStr _ => true | _ => false end
  else if bool_decide (k ∈ bool_properties.*1) then
    match v with JBool _ => true | _ => false end
  else false.

(** No line feed in the string. *)
Fixpoint no_line_feed (s : string) : bool :=
  match s with
  | "" => true
  | String c rest => negb (Ascii.eqb c newline) && no_line_feed rest
  end.

(** The last line of a text without a final line feed: not empty and no
    line feed in it. *)
Definition partial (line : string) : bool :=
  negb (String.eqb line "") && no_line_feed line.

(** Lines as [readlines] returns them: every line ends with its newline,
    except possibly the last. *)
Fixpoint lines_wf (lines : list string) : bool :=
  match lines with
  | [] => true
  | [line] => complete line || partial line
  | line :: rest => complete line && lines_wf rest
  end.

(** The first value of [code] in a request, if it has one. *)
Definition first_code (query_components : gmap string (list string))
    : option string :=
  match query_components !! "code" with
  | Some (code :: _) => Some code
  | _ => None
  end.

(** ** Sample values

    The conversions of a few Python values, used in the examples. *)
Module Samples.

(** An [int]. *)
Definition int_obj (n : Z) : pyval :=
  PyObject
    {| to_int := Ok n;
       to_float :=
         match binary_normalize 53 1024 n 0 false with
         | S754_infinity _ => Raise OverflowError
         | f => Ok f
         end;
       to_str := Ok (pretty n);
       to_bool := Ok (negb (n =? 0)%Z) |}.

(** A [str] that is not a numeric literal. *)
Definition text_obj (s : string) : pyval :=
  PyObject
    {| to_int := Raise ValueError;
       to_float := Raise ValueError;
       to_str := Ok s;
       to_bool := Ok (negb (String.eqb s "")) |}.

(** An object without numeric conversions, such as a [datetime] or a
    non-zero [timedelta], printed as [repr]. *)
Definition plain_obj (repr : string) : pyval :=
  PyObject
    {| to_int := Raise TypeError;
       to_float := Raise TypeError;
       to_str := Ok repr;
       to_bool := Ok true |}.

(** An activity with the given id and local start date and no optional
    attribute. *)
Definition bare (id : Z) (start : string) : activity :=
  {| act_id := int_obj id;
     act_name := text_obj "Morning Run";
     act_start_date_local := plain_obj start;
     act_type := text_obj "Run";
     act_attrs := ∅ |}.

Definition with_attr (k : string) (v : pyval) (a : activity) : activity :=
  {| act_id := act_id a;
     act_name := act_name a;
     act_start_date_local := act_start_date_local a;
     act_type := act_type a;
     act_attrs := <[k := v]> (act_attrs a) |}.

(** A stored record with an id and a start date only. *)
Definition stored (id : Z) (start : string) : record :=
  <["start_date_local" := JStr start]> (<["id" := JInt id]> ∅).

Definition tokens : token_response :=
  {| access_token := "a1"; refresh_token := "r1" |}.

Definition cfg : config :=
  {| CLIENT_ID := Some "42"; CLIENT_SECRET := Some "s3cret";
     ACCESS_TOKEN := Some "a0"; REFRESH_TOKEN := Some "r0" |}.

(** A provider that refreshes the token and returns [fetched]. *)
Definition serving (fetched : list activity) : client :=
  {| refresh_access_token := λ _ _ _, Ok tokens;
     get_activities := λ _ _, Ok fetched |}.

Definition incremental : cli_args := {| full_refresh := false; limit := 30 |}.
Definition full : cli_args := {| full_refresh := true; limit := 30 |}.

End Samples.

(** * Properties *)

(** ** Results *)

Lemma bind_Ok {A B} (m : pyresult A) (f : A → pyresult B) (b : B) :
  m ≫= f = Ok b ↔ ∃ a, m = Ok a ∧ f a = Ok b.
Proof.
  destruct m as [a|e]; simpl; split.
  - intros H. by exists a.
  - by intros (a' & [= <-] & H).
  - discriminate.
  - by intros (a' & ? & _).
Qed.

Lemma fmap_Ok {A B} (m : pyresult A) (f : A → B) (b : B) :
  f <$> m = Ok b ↔ ∃ a, m = Ok a ∧ b = f a.
Proof.
  destruct m as [a|e]; simpl; split.
  - intros [= <-]. by exists a.
  - by intros (a' & [= <-] & ->).
  - discriminate.
  - by intros (a' & ? & _).
Qed.

(** Decomposes a hypothesis [m ≫= f = Ok b] into its steps. *)
Ltac bind_inv H :=
  repeat
    match type of H with
    | _ ≫= _ = Ok _ =>
        let a := fresh "a" in
        let Ha := fresh "Hstep" in
        apply bind_Ok in H as (a & Ha & H)
    end.

(** A goal [x ∉ l] on closed terms. *)
Ltac closed_notin := apply (bool_decide_unpack _); vm_compute; exact I.

(** ** [activity_to_dict] *)

Lemma set_properties_other conv dflt a properties (result result' : record) k :
  set_properties conv dflt a properties result = Ok result' →
  k ∉ properties.*1 →
  result' !! k = result !! k.
Proof.
  revert result.
  induction properties as [|[key attr] rest IH]; intros result; simpl.
  - by intros [= <-].
  - intros H Hk. bind_inv H.
    apply not_elem_of_cons in Hk as [Hne Hk].
    rewrite (IH _ H Hk). by apply lookup_insert_ne.
Qed.

Lemma set_properties_key conv dflt a properties (result result' : record)
    key attr :
  set_properties conv dflt a properties result = Ok result' →
  NoDup properties.*1 →
  (key, attr) ∈ properties →
  ∃ j, optional_value conv dflt a attr = Ok j ∧ result' !! key = Some j.
Proof.
  revert result.
  induction properties as [|[key' attr'] rest IH]; intros result; simpl.
  - intros _ _ Hin. by apply elem_of_nil in Hin.
  - intros H Hnd Hin. bind_inv H.
    apply NoDup_cons in Hnd as [Hfresh Hnd].
    apply elem_of_cons in Hin as [[= -> ->]|Hin].
    + exists a0. split; [done|].
      rewrite (set_properties_other _ _ _ _ _ _ _ H Hfresh).
      apply lookup_insert_eq.
    + by apply (IH _ H).
Qed.

(** The keys of the required core are never overwritten by the loops. *)
Lemma full_dict_core a (d : record) k :
  full_dict a = Ok d →
  k ∈ ["id"; "name"; "start_date_local"; "type"; "distance";
       "moving_time"; "elapsed_time"] →
  ∃ d0 : record, base_dict a = Ok d0 ∧ d !! k = d0 !! k.
Proof.
  unfold full_dict. intros H Hk. bind_inv H.
  exists a0. split; [done|].
  rewrite (set_properties_other _ _ _ _ _ _ k H),
          (set_properties_other _ _ _ _ _ _ k Hstep2),
          (set_properties_other _ _ _ _ _ _ k Hstep1),
          (set_properties_other _ _ _ _ _ _ k Hstep0); [done|..];
    intros Hin; repeat (apply elem_of_cons in Hk as [->|Hk]);
    try (by apply elem_of_nil in Hk);
    revert Hin; closed_notin.
Qed.

Lemma base_dict_id a (d : record) :
  base_dict a = Ok d →
  ∃ n s, py_int (act_id a) = Ok n ∧
         py_str (act_start_date_local a) = Ok s ∧
         d !! "id" = Some (JInt n) ∧
         d !! "start_date_local" = Some (JStr s).
Proof.
  unfold base_dict. intros H. bind_inv H. injection H as <-.
  exists a0, a2. by simplify_map_eq.
Qed.

Lemma minimal_dict_id a (d : record) :
  minimal_dict a = Ok d →
  ∃ n s, py_int (act_id a) = Ok n ∧
         py_str (act_start_date_local a) = Ok s ∧
         d !! "id" = Some (JInt n) ∧
         d !! "start_date_local" = Some (JStr s).
Proof.
  unfold minimal_dict. intros H. bind_inv H. injection H as <-.
  exists a0, a2. by simplify_map_eq.
Qed.

(** Every normalized record has an integer [id], the converted id of the
    activity, and a string [start_date_local]. *)
Lemma activity_to_dict_id a (d : record) :
  activity_to_dict a = Ok d →
  ∃ n s, py_int (act_id a) = Ok n ∧
         py_str (act_start_date_local a) = Ok s ∧
         d !! "id" = Some (JInt n) ∧
         d !! "start_date_local" = Some (JStr s).
Proof.
  unfold activity_to_dict. destruct (full_dict a) as [r|e] eqn:Hfull.
  - intros [= <-].
    destruct (full_dict_core a r "id" Hfull) as (d0 & Hbase & Hid);
      [set_solver|].
    destruct (full_dict_core a r "start_date_local" Hfull)
      as (d1 & Hbase' & Hstart); [set_solver|].
    rewrite Hbase in Hbase'. injection Hbase' as <-.
    destruct (base_dict_id a d0 Hbase) as (n & s & ? & ? & ? & ?).
    exists n, s. by rewrite Hid, Hstart.
  - apply minimal_dict_id.
Qed.

(** The conversion raises only when the fallback dictionary cannot be
    built either. *)
Lemma activity_to_dict_ok a :
  is_ok (minimal_dict a) = true → ∃ d, activity_to_dict a = Ok d.
Proof.
  unfold activity_to_dict. destruct (full_dict a); [eauto|].
  destruct (minimal_dict a); [eauto|done].
Qed.

(** ** Sorting *)

Lemma is_str_spec j : is_str j = true ↔ ∃ s, j = JStr s.
Proof.
  destruct j; simpl; split; try discriminate; eauto; by intros [? [=]].
Qed.

(** Two values that [<] accepts are both strings or both numbers. *)
Lemma py_lt_kind a b c : py_lt a b = Ok c → is_str a = is_str b.
Proof. destruct a, b; simpl; try done; try destruct b0; done. Qed.

Lemma ltb_false_le s t : String.ltb s t = false → (t ≤ s)%string.
Proof.
  unfold String.ltb, String.le, String.leb.
  rewrite (String.compare_antisym t s).
  by destruct (String.compare s t).
Qed.

Lemma ltb_true_le s t : String.ltb s t = true → (s ≤ t)%string.
Proof.
  unfold String.ltb, String.le, String.leb.
  by destruct (String.compare s t).
Qed.

Section PySortFacts.
Context {A : Type} (key : A → json).

Lemma py_insert_perm x l l' : py_insert key x l = Ok l' → l' ≡ₚ x :: l.
Proof.
  revert l'. induction l as [|y l IH]; intros l'; simpl.
  - by intros [= <-].
  - intros H. bind_inv H. destruct a.
    + bind_inv H. injection H as <-.
      rewrite (IH _ Hstep0). apply Permutation_swap.
    + by injection H as <-.
Qed.

Lemma py_sort_perm l l' : py_sort key l = Ok l' → l' ≡ₚ l.
Proof.
  revert l'. induction l as [|x l IH]; intros l'; simpl.
  - by intros [= <-].
  - intros H. bind_inv H.
    rewrite (py_insert_perm _ _ _ H). by rewrite (IH _ Hstep).
Qed.

Lemma py_insert_head_kind x y l l' :
  py_insert key x (y :: l) = Ok l' → is_str (key y) = is_str (key x).
Proof. simpl. intros H. bind_inv H. by eapply py_lt_kind. Qed.

(** A sort that succeeds has only compared keys of one kind. *)
Lemma py_sort_uniform l l' x y :
  py_sort key l = Ok l' → x ∈ l → y ∈ l →
  is_str (key x) = is_str (key y).
Proof.
  revert l' x y. induction l as [|z l IH]; intros l' x y; simpl.
  - intros _ Hx. by apply elem_of_nil in Hx.
  - intros H Hx Hy. bind_inv H.
    assert (Hz : ∀ u, u ∈ l → is_str (key u) = is_str (key z)).
    { intros u Hu.
      destruct a as [|v s].
      - apply py_sort_perm in Hstep. symmetry in Hstep.
        apply Permutation_nil_r in Hstep. subst l.
        by apply elem_of_nil in Hu.
      - rewrite <- (py_insert_head_kind _ _ _ _ H).
        apply (IH _ u v Hstep Hu).
        rewrite <- (py_sort_perm _ _ Hstep). apply elem_of_cons. by left. }
    apply elem_of_cons in Hx as [->|Hx], Hy as [->|Hy]; [done|..].
    + symmetry. by apply Hz.
    + by apply Hz.
    + by rewrite (Hz x Hx), (Hz y Hy).
Qed.

Lemma py_insert_strings x l :
  is_str (key x) = true → Forall (λ y, is_str (key y) = true) l →
  Sorted (str_le key) l →
  ∃ l', py_insert key x l = Ok l' ∧ Sorted (str_le key) l' ∧
        ∀ z, HdRel (str_le key) z l → str_le key z x → HdRel (str_le key) z l'.
Proof.
  intros [s Hs]%is_str_spec.
  induction l as [|y l IH]; intros Hall Hsorted; simpl.
  - eexists. split; [done|]. split; [repeat constructor|].
    intros z _ Hzx. by constructor.
  - apply Forall_cons in Hall as [[t Ht]%is_str_spec Hall].
    apply Sorted_inv in Hsorted as [Hsorted Hhd].
    rewrite Ht, Hs. simpl.
    destruct (String.ltb t s) eqn:Hlt; simpl.
    + destruct (IH Hall Hsorted) as (l' & -> & Hsorted' & Hhd').
      simpl. eexists. split; [done|]. split.
      * constructor; [done|]. apply Hhd'; [done|].
        exists t, s. eauto using ltb_true_le.
      * intros z Hz _. constructor. by apply HdRel_inv in Hz.
    + eexists. split; [done|]. split.
      * constructor; [by constructor|]. constructor.
        exists s, t. eauto using ltb_false_le.
      * intros z _ Hzx. by constructor.
Qed.

(** On string keys the sort never raises and its result is ordered. *)
Lemma py_sort_strings l :
  Forall (λ y, is_str (key y) = true) l →
  ∃ l', py_sort key l = Ok l' ∧ Sorted (str_le key) l'.
Proof.
  induction l as [|x l IH]; intros Hall; simpl.
  - exists []. split; [done|constructor].
  - apply Forall_cons in Hall as [Hx Hall].
    destruct (IH Hall) as (s & Hs & Hsorted). rewrite Hs. simpl.
    assert (Forall (λ y, is_str (key y) = true) s) as Hall'.
    { by rewrite (py_sort_perm _ _ Hs). }
    destruct (py_insert_strings x s Hx Hall' Hsorted) as (l' & ? & ? & _).
    eauto.
Qed.

(** A successful sort of a list that holds one string key is ordered by
    the string order. *)
Lemma py_sort_sorted l l' x :
  py_sort key l = Ok l' → x ∈ l → is_str (key x) = true →
  Forall (λ y, is_str (key y) = true) l ∧ Sorted (str_le key) l'.
Proof.
  intros Hsort Hx Hstr.
  assert (Forall (λ y, is_str (key y) = true) l) as Hall.
  { apply Forall_forall. intros y Hy.
    by rewrite (py_sort_uniform _ _ y x Hsort Hy Hx). }
  split; [done|].
  destruct (py_sort_strings l Hall) as (l'' & Hsort' & Hsorted).
  rewrite Hsort in Hsort'. by injection Hsort' as <-.
Qed.
End PySortFacts.

(** ** Merging *)

Lemma py_eq_int_refl n : py_eq (JInt n) (JInt n) = true.
Proof. unfold py_eq, py_compare_num. by rewrite Z.compare_refl. Qed.

Lemma py_in_elem n ids : JInt n ∈ ids → py_in (JInt n) ids = true.
Proof.
  intros Hin. apply existsb_exists. exists (JInt n).
  split; [by apply list_elem_of_In|apply py_eq_int_refl].
Qed.

Lemma py_in_app v ids ids' :
  py_in v (ids ++ ids') = py_in v ids || py_in v ids'.
Proof. apply existsb_app. Qed.

Lemma py_in_perm v ids ids' : ids ≡ₚ ids' → py_in v ids = py_in v ids'.
Proof.
  intros Hperm. unfold py_in.
  induction Hperm as [|x l l' _ IH|x y l|l l' l'' _ IH1 _ IH2]; simpl.
  - done.
  - by rewrite IH.
  - by destruct (py_eq v x), (py_eq v y).
  - by rewrite IH1.
Qed.

Lemma existing_ids_elem (r : record) i l :
  r ∈ l → r !! "id" = Some i → i ∈ existing_ids l.
Proof. intros Hr Hi. apply list_elem_of_omap. eauto. Qed.

Lemma existing_ids_perm l l' : l ≡ₚ l' → existing_ids l ≡ₚ existing_ids l'.
Proof. intros Hperm. unfold existing_ids. by rewrite Hperm. Qed.

Lemma existing_ids_app l l' :
  existing_ids (l ++ l') = existing_ids l ++ existing_ids l'.
Proof. apply omap_app. Qed.

(** What the loop keeps: the normalized records whose id is new. *)
Lemma collect_new_elem (d : record) ids fetched :
  d ∈ collect_new ids fetched →
  ∃ a n, a ∈ fetched ∧ activity_to_dict a = Ok d ∧
         d !! "id" = Some (JInt n) ∧ py_in (JInt n) ids = false.
Proof.
  induction fetched as [|a rest IH]; simpl.
  - intros Hd. by apply elem_of_nil in Hd.
  - assert (d ∈ collect_new ids rest →
            ∃ a0 n, a0 ∈ a :: rest ∧ activity_to_dict a0 = Ok d ∧
                    d !! "id" = Some (JInt n) ∧ py_in (JInt n) ids = false)
      as Hrest.
    { intros (a0 & n & ? & ?)%IH. exists a0, n. split; [by right|done]. }
    destruct (activity_to_dict a) as [d'|e] eqn:Hconv; simpl; [|done].
    destruct (activity_to_dict_id a d' Hconv) as (n & s & _ & _ & Hid & _).
    unfold getitem. rewrite Hid. simpl.
    destruct (py_in (JInt n) ids) eqn:Hin; [done|].
    intros [->|Hd]%elem_of_cons; [|by apply Hrest].
    exists a, n. split; [by left|done].
Qed.

Lemma collect_new_keeps a (d : record) n ids fetched :
  a ∈ fetched → activity_to_dict a = Ok d →
  d !! "id" = Some (JInt n) → py_in (JInt n) ids = false →
  d ∈ collect_new ids fetched.
Proof.
  intros Ha Hconv Hid Hin.
  induction fetched as [|a' rest IH]; [by apply elem_of_nil in Ha|].
  simpl. apply elem_of_cons in Ha as [<-|Ha].
  - rewrite Hconv. simpl. unfold getitem. rewrite Hid. simpl.
    rewrite Hin. by left.
  - specialize (IH Ha).
    destruct (d' ← activity_to_dict a'; i ← getitem d' "id"; Ok (d', i))
      as [[d' i]|]; [|done].
    destruct (py_in i ids); [done|by right].
Qed.

Lemma collect_new_nil ids fetched :
  (∀ a (d : record) n, a ∈ fetched → activity_to_dict a = Ok d →
     d !! "id" = Some (JInt n) → py_in (JInt n) ids = true) →
  collect_new ids fetched = [].
Proof.
  intros Hall. destruct (collect_new ids fetched) as [|d l] eqn:Hnew; [done|].
  destruct (collect_new_elem d ids fetched) as (a & n & Ha & Hconv & Hid & Hin).
  { rewrite Hnew. by left. }
  by rewrite (Hall a d n Ha Hconv Hid) in Hin.
Qed.

(** With nothing to compare against, every normalized record is kept. *)
Lemma collect_new_all fetched : collect_new [] fetched = normalized fetched.
Proof.
  induction fetched as [|a rest IH]; simpl; [done|].
  destruct (activity_to_dict a) as [d|e] eqn:Hconv; simpl; [|done].
  destruct (activity_to_dict_id a d Hconv) as (n & s & _ & _ & Hid & _).
  unfold getitem. rewrite Hid. simpl. by rewrite IH.
Qed.

(** The new records carry string sort keys. *)
Lemma collect_new_keys ids fetched :
  Forall (λ d, is_str (sort_key d) = true) (collect_new ids fetched).
Proof.
  apply Forall_forall. intros d (a & n & _ & Hconv & _)%collect_new_elem.
  destruct (activity_to_dict_id a d Hconv) as (_ & s & _ & _ & _ & Hstart).
  unfold sort_key. by rewrite Hstart.
Qed.

(** The two ways a run of the merge can go, spelled out. *)
Lemma process_incremental f fetched :
  process_activities false f fetched =
    existing ← load_existing_activities f;
    let new := collect_new (existing_ids existing) fetched in
    match new with
    | [] => Ok None
    | _ => Some <$> py_sort sort_key (existing ++ new)
    end.
Proof.
  unfold process_activities.
  destruct (load_existing_activities f) as [existing|e]; simpl; [|done].
  destruct (collect_new _ fetched) as [|d l]; simpl; [done|].
  by destruct (py_sort _ _).
Qed.

(** An incremental merge that returns has loaded the stored records. *)
Lemma process_loaded f fetched r :
  process_activities false f fetched = Ok r →
  ∃ existing,
    load_existing_activities f = Ok existing ∧
    (let new := collect_new (existing_ids existing) fetched in
     match new with
     | [] => Ok None
     | _ => Some <$> py_sort sort_key (existing ++ new)
     end) = Ok r.
Proof.
  rewrite process_incremental.
  destruct (load_existing_activities f) as [existing|e]; simpl; [|done].
  intros Hmerge. by exists existing.
Qed.

Lemma process_full f fetched :
  process_activities true f fetched =
    Some <$> py_sort sort_key (normalized fetched).
Proof.
  unfold process_activities. rewrite orb_true_r, collect_new_all.
  by destruct (py_sort _ _).
Qed.

(** The core of idempotence: after a run that saved, the same fetch finds
    nothing new. *)
Lemma process_twice f fetched l :
  process_activities false f fetched = Ok (Some l) →
  process_activities false (save_activities l) fetched = Ok None.
Proof.
  intros (existing & _ & Hmerge)%process_loaded. revert Hmerge.
  rewrite process_incremental. simpl.
  destruct (collect_new (existing_ids existing) fetched) as [|d0 new0] eqn:Hnew;
    [done|].
  rewrite <- Hnew. intros (l' & Hsort & [= ->])%fmap_Ok.
  apply py_sort_perm in Hsort.
  rewrite collect_new_nil; [done|].
  intros a d n Ha Hconv Hid.
  rewrite (py_in_perm _ _ _ (existing_ids_perm _ _ Hsort)).
  rewrite existing_ids_app, py_in_app.
  apply orb_true_iff.
  destruct (py_in (JInt n) (existing_ids existing)) eqn:Hin; [by left|right].
  apply py_in_elem. eapply existing_ids_elem; [|done].
  by eapply collect_new_keeps.
Qed.

(** ** The sync run *)

Lemma handler_not_updated e : handler e ≠ Updated.
Proof. by destruct e. Qed.

(** A run that fetches ends as the merge decides. *)
Lemma main_fetches cfg args c fs fetched :
  fetches cfg args c fetched →
  activities_file (main cfg args c fs).1 =
    match process_activities (full_refresh args) (activities_file fs)
            fetched with
    | Ok (Some l) => save_activities l
    | _ => activities_file fs
    end ∧
  (main cfg args c fs).2 =
    match process_activities (full_refresh args) (activities_file fs)
            fetched with
    | Ok (Some _) => Updated
    | Ok None => NoNewActivities
    | Raise e => handler e
    end.
Proof.
  intros (Hid & Hsecret & Hrefresh & t & Ht & Hfetch).
  unfold main, get_token. rewrite Hid, Hsecret, Hrefresh, Ht. simpl.
  rewrite Hfetch.
  by destruct (process_activities _ _ _) as [[l|]|e].
Qed.

(** Only a run that fetched and merged saves. *)
Lemma main_updated cfg args c fs :
  (main cfg args c fs).2 = Updated →
  ∃ fetched l,
    fetches cfg args c fetched ∧
    process_activities (full_refresh args) (activities_file fs) fetched
      = Ok (Some l) ∧
    activities_file (main cfg args c fs).1 = save_activities l.
Proof.
  unfold main, get_token, fetches.
  destruct (truthy (CLIENT_ID cfg)); simpl; [|done].
  destruct (truthy (CLIENT_SECRET cfg)); simpl; [|done].
  destruct (truthy (REFRESH_TOKEN cfg)); simpl; [|done].
  destruct (refresh_access_token c _ _ _) as [t|e]; simpl; [|done].
  destruct (get_activities c _ _) as [fetched|e] eqn:Hfetch; simpl; [|done].
  destruct (process_activities _ _ _) as [[l|]|e] eqn:Hmerge; simpl.
  - intros _. exists fetched, l. eauto 10.
  - done.
  - intros H. by apply handler_not_updated in H.
Qed.

(** Every other run leaves the activities file alone. *)
Lemma main_not_updated cfg args c fs :
  (main cfg args c fs).2 ≠ Updated →
  activities_file (main cfg args c fs).1 = activities_file fs.
Proof.
  unfold main, get_token.
  destruct (truthy (CLIENT_ID cfg)); simpl; [|done].
  destruct (truthy (CLIENT_SECRET cfg)); simpl; [|done].
  destruct (truthy (REFRESH_TOKEN cfg)); simpl; [|done].
  destruct (refresh_access_token c _ _ _) as [t|e]; simpl; [|done].
  destruct (get_activities c _ _) as [fetched|e]; simpl; [|done].
  by destruct (process_activities _ _ _) as [[l|]|e].
Qed.

(** C1. Incremental-sync idempotence: when an incremental run has fetched
    a set of activities and a second incremental run fetches the same set
    with the same limit, the second run saves nothing: the activities file
    after it is the file the first run left, with the same ids. *)
Theorem incremental_sync_idempotent cfg cfg' args c c' fs fetched :
  full_refresh args = false →
  fetches cfg args c fetched →
  (∀ fetched', fetches cfg' args c' fetched' → fetched' = fetched) →
  let after_first := (main cfg args c fs).1 in
  let second := main cfg' args c' after_first in
  activities_file second.1 = activities_file after_first ∧
  second.2 ≠ Updated ∧
  existing_ids <$> load_existing_activities (activities_file second.1) =
    existing_ids <$> load_existing_activities (activities_file after_first).
Proof.
  intros Hmode Hfetch Hsame after_first second.
  assert (second.2 ≠ Updated) as Hsecond.
  { intros (fetched' & l' & Hfetch' & Hmerge' & _)%main_updated.
    rewrite (Hsame _ Hfetch') in Hmerge'.
    destruct (main_fetches cfg args c fs fetched Hfetch) as [Hfile _].
    fold after_first in Hfile. rewrite Hfile, Hmode in Hmerge'.
    destruct (process_activities false (activities_file fs) fetched)
      as [[l|]|e] eqn:Hmerge.
    - by rewrite (process_twice _ _ _ Hmerge) in Hmerge'.
    - by rewrite Hmerge in Hmerge'.
    - by rewrite Hmerge in Hmerge'. }
  assert (activities_file second.1 = activities_file after_first) as Hfile2.
  { by apply main_not_updated. }
  by rewrite Hfile2.
Qed.

Lemma incremental_sync_idempotent_witness :
  let fetched := [Samples.bare 10 "2024-01-02"; Samples.bare 11 "2024-01-01"] in
  let after_first :=
    (main Samples.cfg Samples.incremental (Samples.serving fetched)
       empty_files).1 in
  let second :=
    main Samples.cfg Samples.incremental (Samples.serving fetched)
      after_first in
  existing_ids <$> load_existing_activities (activities_file after_first) =
    Ok [JInt 11; JInt 10] ∧
  activities_file second.1 = activities_file after_first ∧
  second.2 ≠ Updated.
Proof.
  intros fetched after_first second. split; [vm_compute; reflexivity|].
  destruct (incremental_sync_idempotent Samples.cfg Samples.cfg
              Samples.incremental (Samples.serving fetched)
              (Samples.serving fetched) empty_files fetched)
    as (Hfile & Hout & _).
  - reflexivity.
  - repeat split. by exists Samples.tokens.
  - intros fetched' (_ & _ & _ & t & _ & Hget). simpl in Hget. congruence.
  - split; [exact Hfile|exact Hout].
Defined.

(** C7, as the code has it.  Error atomicity of the sync run.  When the
    refresh exchange fails, the run ends as a configuration error and both
    files are what they were.  When [get_token] has returned a token and
    the fetch with that token fails, the run ends there: the activities
    file is what it was, and the credentials file is the one [get_token]
    left, rewritten with the tokens of the refresh. *)
Theorem sync_errors_leave_store cfg args c fs :
  let refresh :=
    refresh_access_token c (CLIENT_ID cfg) (CLIENT_SECRET cfg)
      (REFRESH_TOKEN cfg) in
  (is_ok refresh = false → main cfg args c fs = (fs, ConfigurationError)) ∧
  (∀ fs1 token e,
     truthy (CLIENT_ID cfg) = true → truthy (CLIENT_SECRET cfg) = true →
     get_token cfg c fs = (fs1, Ok token) →
     get_activities c token (limit args) = Raise e →
     main cfg args c fs = (fs1, FetchFailed e) ∧
     activities_file fs1 = activities_file fs ∧
     ∃ t, refresh = Ok t ∧ token = access_token t ∧
          env_file fs1 = update_env_file (env_file fs) t).
Proof.
  intros refresh. split.
  - unfold refresh. intros Hr. unfold main, get_token.
    destruct (truthy (CLIENT_ID cfg)); simpl; [|done].
    destruct (truthy (CLIENT_SECRET cfg)); simpl; [|done].
    destruct (truthy (REFRESH_TOKEN cfg)); simpl; [|done].
    by destruct (refresh_access_token c _ _ _).
  - intros fs1 token e Hid Hsecret Htoken Hfetch.
    unfold main. rewrite Hid, Hsecret, Htoken. simpl. rewrite Hfetch.
    split; [done|]. revert Htoken. unfold get_token, refresh.
    destruct (truthy (REFRESH_TOKEN cfg)); [|done].
    destruct (refresh_access_token c _ _ _) as [t|e']; [|done].
    intros [= <- <-]. split; [done|]. by exists t.
Qed.

Lemma sync_errors_leave_store_witness :
  let stored :=
    {| env_file := Some "CLIENT_ID=42";
       activities_file := JsonArray [Samples.stored 1 "2024-01-01"] |} in
  let rejecting :=
    {| refresh_access_token := λ _ _ _, Raise OtherError;
       get_activities := λ _ _, Ok [Samples.bare 2 "2024-01-02"] |} in
  let picky :=
    {| refresh_access_token := λ _ _ _, Ok Samples.tokens;
       get_activities := λ token _,
         if String.eqb token "a1" then Raise OtherError
         else Ok [Samples.bare 2 "2024-01-02"] |} in
  let refreshed :=
    {| env_file := update_env_file (env_file stored) Samples.tokens;
       activities_file := activities_file stored |} in
  main Samples.cfg Samples.incremental rejecting stored
    = (stored, ConfigurationError) ∧
  main Samples.cfg Samples.full picky stored
    = (refreshed, FetchFailed OtherError).
Proof.
  intros stored rejecting picky refreshed. split.
  - destruct (sync_errors_leave_store Samples.cfg Samples.incremental
                rejecting stored) as [Hrun _].
    apply Hrun. reflexivity.
  - destruct (sync_errors_leave_store Samples.cfg Samples.full
                picky stored) as [_ Hrun].
    destruct (Hrun refreshed "a1" OtherError) as [Hmain _];
      [reflexivity|reflexivity|reflexivity|reflexivity|exact Hmain].
Defined.

(** C7 as stated fails for the credentials file: after a refresh that the
    provider accepted and a fetch that failed, the run has saved no
    activity, and the credentials file is not what it was. *)
Lemma sync_errors_leave_store_counterexample :
  let stored :=
    {| env_file := Some ("CLIENT_ID=42" +:+ nl);
       activities_file := JsonArray [Samples.stored 1 "2024-01-01"] |} in
  let unreachable :=
    {| refresh_access_token := λ _ _ _, Ok Samples.tokens;
       get_activities := λ _ _, Raise OtherError |} in
  let run := main Samples.cfg Samples.incremental unreachable stored in
  run.2 = FetchFailed OtherError ∧
  env_file run.1
    = Some ("CLIENT_ID=42" +:+ nl +:+ "ACCESS_TOKEN=a1" +:+ nl
            +:+ "REFRESH_TOKEN=r1" +:+ nl) ∧
  env_file run.1 ≠ env_file stored.
Proof.
  intros stored unreachable run.
  assert (env_file run.1
          = Some ("CLIENT_ID=42" +:+ nl +:+ "ACCESS_TOKEN=a1" +:+ nl
                  +:+ "REFRESH_TOKEN=r1" +:+ nl)) as Henv
    by (vm_compute; reflexivity).
  split; [reflexivity|]. split; [exact Henv|].
  rewrite Henv. simpl. discriminate.
Qed.

(** The part of corrupt-store recovery that the code does: loading an
    activities file whose text [json.load] rejects with
    [json.JSONDecodeError] gives the empty list, and an incremental run
    over such a file whose fetch returns one activity that normalizes to
    [d] saves exactly [[d]]. *)
Lemma rejected_json_recovered cfg args c fs a (d : record) :
  full_refresh args = false →
  activities_file fs = NotJson →
  fetches cfg args c [a] →
  activity_to_dict a = Ok d →
  load_existing_activities (activities_file fs) = Ok [] ∧
  activities_file (main cfg args c fs).1 = JsonArray [d] ∧
  (main cfg args c fs).2 = Updated.
Proof.
  intros Hmode Hfile Hfetch Hconv.
  destruct (main_fetches cfg args c fs [a] Hfetch) as [Hfile' Hout].
  rewrite Hfile', Hout, Hmode, Hfile, process_incremental. simpl.
  rewrite Hconv. simpl.
  destruct (activity_to_dict_id a d Hconv) as (n & s & _ & _ & Hid & _).
  unfold getitem. rewrite Hid. simpl. done.
Qed.

Lemma rejected_json_recovered_witness :
  let a := Samples.bare 10 "2024-01-02" in
  let corrupt := {| env_file := None; activities_file := NotJson |} in
  ∃ d : record,
    activity_to_dict a = Ok d ∧
    activities_file
      (main Samples.cfg Samples.incremental (Samples.serving [a]) corrupt).1
      = JsonArray [d].
Proof.
  intros a corrupt.
  destruct (activity_to_dict_ok a) as [d Hconv]; [reflexivity|].
  exists d. split; [exact Hconv|].
  destruct (rejected_json_recovered Samples.cfg Samples.incremental
              (Samples.serving [a]) corrupt a d) as (_ & Hfile & _);
    [reflexivity|reflexivity| |exact Hconv|exact Hfile].
  repeat split. by exists Samples.tokens.
Defined.

(** The part that the code misses: when reading or parsing the activities
    file raises anything but [json.JSONDecodeError], the loader raises it,
    and an incremental run that fetches ends in the handler of that
    exception with the activities file as it was. *)
Lemma unreadable_store_aborts cfg args c fs fetched e :
  full_refresh args = false →
  activities_file fs = Unreadable e →
  fetches cfg args c fetched →
  load_existing_activities (activities_file fs) = Raise e ∧
  (main cfg args c fs).2 = handler e ∧
  activities_file (main cfg args c fs).1 = activities_file fs.
Proof.
  intros Hmode Hfile Hfetch.
  destruct (main_fetches cfg args c fs fetched Hfetch) as [Hfile' Hout].
  rewrite Hfile', Hout, Hmode, Hfile.
  by rewrite process_incremental.
Qed.

(** C6.  Corrupt-store recovery fails on an activities file whose bytes are
    not text in the encoding of the locale, which is not valid JSON: the
    loader raises the [UnicodeDecodeError] (a [ValueError]) instead of
    returning the empty list, and the incremental run that fetches one
    activity ends as a configuration error and saves nothing, where the
    claim has the one fetched activity saved. *)
Theorem corrupt_store_not_recovered :
  let a := Samples.bare 10 "2024-01-02" in
  let corrupt :=
    {| env_file := None; activities_file := Unreadable ValueError |} in
  let run :=
    main Samples.cfg Samples.incremental (Samples.serving [a]) corrupt in
  load_existing_activities (activities_file corrupt) = Raise ValueError ∧
  run.2 = ConfigurationError ∧
  activities_file run.1 = Unreadable ValueError.
Proof.
  intros a corrupt run.
  destruct (unreadable_store_aborts Samples.cfg Samples.incremental
              (Samples.serving [a]) corrupt [a] ValueError)
    as (Hload & Hout & Hfile); [reflexivity|reflexivity| |].
  - repeat split. by exists Samples.tokens.
  - split; [exact Hload|]. split; [exact Hout|exact Hfile].
Qed.

(** C4. Full-refresh replacement: a full-refresh run that fetches saves the
    normalized fetched records, sorted, and nothing else; what the
    activities file held before plays no part. *)
Theorem full_refresh_replaces cfg args c fs fetched :
  full_refresh args = true →
  fetches cfg args c fetched →
  ∃ l, py_sort sort_key (normalized fetched) = Ok l ∧
       l ≡ₚ normalized fetched ∧
       (main cfg args c fs).2 = Updated ∧
       activities_file (main cfg args c fs).1 = JsonArray l ∧
       ∀ fs', activities_file (main cfg args c fs').1 = JsonArray l.
Proof.
  intros Hmode Hfetch.
  destruct (py_sort_strings sort_key (normalized fetched)) as (l & Hsort & _).
  { rewrite <- collect_new_all. apply collect_new_keys. }
  exists l. split; [done|]. split; [by apply py_sort_perm in Hsort|].
  assert (∀ fs', activities_file (main cfg args c fs').1 = JsonArray l ∧
                 (main cfg args c fs').2 = Updated) as Hany.
  { intros fs'.
    destruct (main_fetches cfg args c fs' fetched Hfetch) as [-> ->].
    by rewrite Hmode, process_full, Hsort. }
  split; [apply Hany|]. split; [apply Hany|]. intros fs'. apply Hany.
Qed.

Lemma full_refresh_replaces_witness :
  let store :=
    {| env_file := None;
       activities_file :=
         JsonArray [Samples.stored 1 "2024-01-01";
                    Samples.stored 2 "2024-01-02";
                    Samples.stored 3 "2024-01-03"] |} in
  let fetched :=
    [Samples.bare 4 "2024-01-04"; Samples.bare 3 "2024-01-03";
     Samples.bare 2 "2024-01-02"] in
  let after :=
    (main Samples.cfg Samples.full (Samples.serving fetched) store).1 in
  (∃ l, activities_file after = JsonArray l ∧ l ≡ₚ normalized fetched) ∧
  existing_ids <$> load_existing_activities (activities_file after) =
    Ok [JInt 2; JInt 3; JInt 4].
Proof.
  intros store fetched after. split; [|vm_compute; reflexivity].
  destruct (full_refresh_replaces Samples.cfg Samples.full
              (Samples.serving fetched) store fetched)
    as (l & _ & Hperm & _ & Hfile & _).
  - reflexivity.
  - repeat split. by exists Samples.tokens.
  - exists l. split; [exact Hfile|exact Hperm].
Defined.

Global Instance by_start_date_trans : Transitive by_start_date.
Proof.
  intros x y z (s & t & Hx & Hy & Hst) (t' & u & Hy' & Hz & Htu).
  rewrite Hy in Hy'. injection Hy' as <-.
  exists s, u. split; [done|]. split; [done|]. by etrans.
Qed.

(** Whatever the merge hands to [save_activities] is ordered, and was
    sorted from lists whose keys are all strings. *)
Lemma process_sorted full f fetched l :
  process_activities full f fetched = Ok (Some l) →
  Sorted by_start_date l.
Proof.
  intros Hmerge. destruct full.
  - rewrite process_full in Hmerge.
    apply fmap_Ok in Hmerge as (l' & Hsort & [= ->]).
    destruct (py_sort_strings sort_key (normalized fetched))
      as (l'' & Hsort' & Hsorted).
    { rewrite <- collect_new_all. apply collect_new_keys. }
    rewrite Hsort in Hsort'. by injection Hsort' as <-.
  - apply process_loaded in Hmerge as (existing & _ & Hmerge).
    simpl in Hmerge.
    pose proof (collect_new_keys (existing_ids existing) fetched) as Hkeys.
    destruct (collect_new (existing_ids existing) fetched) as [|d new];
      [done|].
    apply fmap_Ok in Hmerge as (l' & Hsort & [= ->]).
    apply Forall_cons in Hkeys as [Hd _].
    apply (py_sort_sorted sort_key _ _ d Hsort); [|done].
    apply elem_of_app. right. by left.
Qed.

(** C5. Sort invariant: whenever a run saves, incremental or full refresh,
    the saved sequence is non-decreasing by [start_date_local] under the
    lexicographic order of strings. *)
Theorem saved_sorted cfg args c fs :
  (main cfg args c fs).2 = Updated →
  ∃ l, activities_file (main cfg args c fs).1 = JsonArray l ∧
       Sorted by_start_date l.
Proof.
  intros (fetched & l & _ & Hmerge & Hfile)%main_updated.
  exists l. split; [done|]. by eapply process_sorted.
Qed.

Lemma saved_sorted_witness :
  let store :=
    {| env_file := None;
       activities_file :=
         JsonArray [Samples.stored 1 "2024-01-01";
                    Samples.stored 3 "2024-01-03"] |} in
  let fetched := [Samples.bare 4 "2024-01-04"; Samples.bare 2 "2024-01-02"] in
  let after :=
    (main Samples.cfg Samples.incremental (Samples.serving fetched)
       store).1 in
  (∃ l, activities_file after = JsonArray l ∧ Sorted by_start_date l) ∧
  existing_ids <$> load_existing_activities (activities_file after) =
    Ok [JInt 1; JInt 2; JInt 3; JInt 4].
Proof.
  intros store fetched after. split; [|vm_compute; reflexivity].
  destruct (saved_sorted Samples.cfg Samples.incremental
              (Samples.serving fetched) store) as (l & Hfile & Hsorted).
  - vm_compute. reflexivity.
  - exists l. split; [exact Hfile|exact Hsorted].
Defined.

(** ** Uniqueness of ids *)

Global Instance JInt_inj : Inj (=) (=) JInt.
Proof. by intros n m [=]. Qed.

Lemma collect_new_ids ids fetched :
  existing_ids (collect_new ids fetched)
    `sublist_of` (JInt <$> omap activity_id fetched).
Proof.
  induction fetched as [|a rest IH]; simpl; [done|].
  assert (existing_ids (collect_new ids rest)
            `sublist_of` (JInt <$> omap activity_id (a :: rest))) as Hskip.
  { simpl. destruct (activity_id a); simpl; [by apply sublist_cons|done]. }
  destruct (activity_to_dict a) as [d|e] eqn:Hconv; simpl; [|done].
  destruct (activity_to_dict_id a d Hconv) as (n & s & Hint & _ & Hid & _).
  unfold getitem. rewrite Hid. simpl.
  destruct (py_in (JInt n) ids); [done|].
  unfold existing_ids, activity_id. simpl. rewrite Hid, Hint. simpl.
  by apply sublist_skip.
Qed.

Lemma collect_new_fresh ids fetched i :
  i ∈ existing_ids (collect_new ids fetched) → i ∉ ids.
Proof.
  intros (d & Hd & Hi)%list_elem_of_omap Hin.
  apply collect_new_elem in Hd as (a & n & _ & _ & Hid & Hnew).
  rewrite Hid in Hi. injection Hi as <-.
  by rewrite (py_in_elem n ids Hin) in Hnew.
Qed.

(** C3, as the code has it. Store id-uniqueness is preserved, not
    established: when the ids of the fetched activities are pairwise
    distinct and, for an incremental run, the stored ids were pairwise
    distinct before the run, a run that saves leaves a store in which no
    two records have the same id. *)
Theorem store_ids_unique cfg args c fs :
  (main cfg args c fs).2 = Updated →
  (full_refresh args = false →
   ∀ existing, load_existing_activities (activities_file fs) = Ok existing →
               NoDup (existing_ids existing)) →
  (∀ fetched, fetches cfg args c fetched →
              NoDup (omap activity_id fetched)) →
  ∃ l, activities_file (main cfg args c fs).1 = JsonArray l ∧
       NoDup (existing_ids l).
Proof.
  intros (fetched & l & Hfetch & Hmerge & Hfile)%main_updated Hstore Hfetched.
  exists l. split; [done|].
  specialize (Hfetched fetched Hfetch).
  assert (∀ ids, NoDup (existing_ids (collect_new ids fetched))) as Hnew.
  { intros ids. eapply sublist_NoDup; [|apply collect_new_ids].
    apply (NoDup_fmap_2 _). done. }
  destruct (full_refresh args).
  - rewrite process_full, <- collect_new_all in Hmerge.
    apply fmap_Ok in Hmerge as (l' & Hsort & [= ->]).
    rewrite (existing_ids_perm _ _ (py_sort_perm _ _ _ Hsort)). apply Hnew.
  - apply process_loaded in Hmerge as (existing & Hload & Hmerge).
    simpl in Hmerge.
    destruct (collect_new (existing_ids existing) fetched) as [|d new] eqn:Hc;
      [done|].
    rewrite <- Hc in Hmerge.
    apply fmap_Ok in Hmerge as (l' & Hsort & [= ->]).
    rewrite (existing_ids_perm _ _ (py_sort_perm _ _ _ Hsort)).
    rewrite existing_ids_app. apply NoDup_app. split; [by apply Hstore|].
    split; [|apply Hnew].
    intros i Hi Hi'. by apply collect_new_fresh in Hi'.
Qed.

Lemma store_ids_unique_witness :
  let store :=
    {| env_file := None;
       activities_file :=
         JsonArray [Samples.stored 1 "2024-01-01";
                    Samples.stored 3 "2024-01-03"] |} in
  let fetched := [Samples.bare 3 "2024-01-03"; Samples.bare 2 "2024-01-02"] in
  let after :=
    (main Samples.cfg Samples.incremental (Samples.serving fetched)
       store).1 in
  (∃ l, activities_file after = JsonArray l ∧ NoDup (existing_ids l)) ∧
  existing_ids <$> load_existing_activities (activities_file after) =
    Ok [JInt 1; JInt 2; JInt 3].
Proof.
  intros store fetched after. split; [|vm_compute; reflexivity].
  apply (store_ids_unique Samples.cfg Samples.incremental
           (Samples.serving fetched) store).
  - vm_compute. reflexivity.
  - intros _ existing [= <-].
    apply (bool_decide_unpack _). vm_compute. exact I.
  - intros fetched' (_ & _ & _ & t & _ & Hget). simpl in Hget.
    injection Hget as <-. vm_compute.
    apply (bool_decide_unpack _). vm_compute. exact I.
Defined.

(** C3 as stated fails: a full refresh whose fetch lists the id 7 twice
    saves two records with the id 7. *)
Lemma store_ids_unique_counterexample :
  let fetched := [Samples.bare 7 "2024-01-02"; Samples.bare 7 "2024-01-01"] in
  let run :=
    main Samples.cfg Samples.full (Samples.serving fetched) empty_files in
  run.2 = Updated ∧
  existing_ids <$> load_existing_activities (activities_file run.1) =
    Ok [JInt 7; JInt 7] ∧
  ∀ l, activities_file run.1 = JsonArray l → ¬ NoDup (existing_ids l).
Proof.
  intros fetched run.
  assert (existing_ids <$> load_existing_activities (activities_file run.1) =
            Ok [JInt 7; JInt 7]) as Hids by (vm_compute; reflexivity).
  split; [vm_compute; reflexivity|]. split; [exact Hids|].
  intros l Hl. rewrite Hl in Hids. injection Hids as Hids.
  rewrite Hids. intros [Hdup _]%NoDup_cons. apply Hdup. by left.
Qed.

(** The same in incremental mode: ids that were stored twice stay stored
    twice. *)
Lemma stored_duplicates_kept :
  let store :=
    {| env_file := None;
       activities_file :=
         JsonArray [Samples.stored 1 "2024-01-01";
                    Samples.stored 1 "2024-01-01"] |} in
  let run :=
    main Samples.cfg Samples.incremental
      (Samples.serving [Samples.bare 2 "2024-01-02"]) store in
  run.2 = Updated ∧
  existing_ids <$> load_existing_activities (activities_file run.1) =
    Ok [JInt 1; JInt 1; JInt 2].
Proof. intros store run. split; vm_compute; reflexivity. Qed.

(** ** Stored records without an id or a start date *)

Lemma existing_ids_without (r : record) l1 l2 :
  r !! "id" = None →
  existing_ids (l1 ++ r :: l2) = existing_ids (l1 ++ l2).
Proof.
  intros Hid. rewrite !existing_ids_app. f_equal.
  unfold existing_ids. simpl. by rewrite Hid.
Qed.

Lemma leb_empty s : (s ≤ "")%string → s = "".
Proof. by destruct s. Qed.

(** No record with the empty sort key follows one with a timestamp. *)
Lemma empty_keys_first l1 (x : record) l2 s (r : record) :
  Sorted by_start_date (l1 ++ x :: l2) →
  sort_key x = JStr s → s ≠ "" →
  sort_key r = JStr "" → r ∉ l2.
Proof.
  intros Hsorted%Sorted_StronglySorted Hx Hs Hr Hin; [|apply _].
  apply StronglySorted_app_1_r, StronglySorted_cons in Hsorted as [Hall _].
  rewrite Forall_forall in Hall.
  destruct (Hall r Hin) as (s' & t & Hx' & Hr' & Hle).
  rewrite Hx in Hx'. injection Hx' as <-.
  rewrite Hr in Hr'. injection Hr' as <-.
  by apply leb_empty in Hle.
Qed.

(** C10. Malformed stored records are tolerated and preserved.  Take an
    incremental run that fetches, over a store in which every
    [start_date_local] that is present is a string.  Records may lack
    [id] or [start_date_local].  Then the run does not fail; a record
    without [id] adds nothing to the set of existing ids, so the new
    activities are those found without it; every stored record is in the
    file after the run; a record without [start_date_local] sorts under the
    empty string, and in a saved file it never follows a record with a
    non-empty timestamp. *)
Theorem malformed_records_tolerated cfg args c fs store fetched :
  full_refresh args = false →
  fetches cfg args c fetched →
  activities_file fs = JsonArray store →
  Forall (λ x, is_str (sort_key x) = true) store →
  let run := main cfg args c fs in
  (run.2 = Updated ∨ run.2 = NoNewActivities) ∧
  (∀ (r : record) l1 l2,
     store = l1 ++ r :: l2 → r !! "id" = None →
     existing_ids store = existing_ids (l1 ++ l2) ∧
     collect_new (existing_ids store) fetched =
       collect_new (existing_ids (l1 ++ l2)) fetched) ∧
  (∃ l, activities_file run.1 = JsonArray l ∧ ∀ r, r ∈ store → r ∈ l) ∧
  (∀ r : record, r !! "start_date_local" = None → sort_key r = JStr "") ∧
  (run.2 = Updated →
   ∀ l l1 (x : record) l2 s (r : record),
     activities_file run.1 = JsonArray l → l = l1 ++ x :: l2 →
     x !! "start_date_local" = Some (JStr s) → s ≠ "" →
     r !! "start_date_local" = None → r ∉ l2).
Proof.
  intros Hmode Hfetch Hfile Hkeys run.
  destruct (main_fetches cfg args c fs fetched Hfetch) as [Hfile' Hout].
  fold run in Hfile', Hout. rewrite Hmode, Hfile in Hfile', Hout.
  assert (process_activities false (JsonArray store) fetched = Ok None ∨
          ∃ l, process_activities false (JsonArray store) fetched
                 = Ok (Some l) ∧ l ≡ₚ store ++
                   collect_new (existing_ids store) fetched) as Hmerge.
  { rewrite process_incremental. simpl.
    destruct (collect_new (existing_ids store) fetched) as [|d new] eqn:Hnew;
      [by left|right]. rewrite <- Hnew.
    destruct (py_sort_strings sort_key
                (store ++ collect_new (existing_ids store) fetched))
      as (l & Hsort & _).
    { apply Forall_app. split; [done|apply collect_new_keys]. }
    exists l. rewrite Hsort. split; [done|by apply py_sort_perm in Hsort]. }
  assert (∀ r : record, r !! "start_date_local" = None →
                        sort_key r = JStr "") as Hempty.
  { intros r Hr. unfold sort_key. by rewrite Hr. }
  split; [|split; [|split; [|split]]].
  - destruct Hmerge as [Hm|(l & Hm & _)]; rewrite Hm in Hout; eauto.
  - intros r l1 l2 -> Hid.
    by rewrite (existing_ids_without r l1 l2 Hid).
  - destruct Hmerge as [Hm|(l & Hm & Hperm)]; rewrite Hm in Hfile'.
    + exists store. by rewrite Hfile'.
    + exists l. split; [done|]. intros r Hr. rewrite Hperm.
      apply elem_of_app. by left.
  - done.
  - intros Hupd l l1 x l2 s r Hl -> Hx Hs Hr.
    destruct Hmerge as [Hm|(l & Hm & _)]; rewrite Hm in Hfile', Hout.
    + by rewrite Hout in Hupd.
    + rewrite Hfile' in Hl. injection Hl as ->.
      eapply (empty_keys_first l1 x l2 s r); eauto.
      * by eapply process_sorted.
      * unfold sort_key. by rewrite Hx.
Qed.

Lemma malformed_records_tolerated_witness :
  let malformed : record := <["name" := JStr "no id, no date"]> ∅ in
  let store := [Samples.stored 1 "2024-01-01"; malformed] in
  let fs := {| env_file := None; activities_file := JsonArray store |} in
  let run :=
    main Samples.cfg Samples.incremental
      (Samples.serving [Samples.bare 2 "2024-01-02"]) fs in
  (∃ l, activities_file run.1 = JsonArray l ∧ ∀ r, r ∈ store → r ∈ l) ∧
  run.2 = Updated ∧
  (λ l : list record, sort_key <$> l)
    <$> load_existing_activities (activities_file run.1) =
    Ok [JStr ""; JStr "2024-01-01"; JStr "2024-01-02"].
Proof.
  intros malformed store fs run.
  split; [|split; vm_compute; reflexivity].
  destruct (malformed_records_tolerated Samples.cfg Samples.incremental
              (Samples.serving [Samples.bare 2 "2024-01-02"]) fs store
              [Samples.bare 2 "2024-01-02"]) as (_ & _ & Hkept & _).
  - reflexivity.
  - repeat split. by exists Samples.tokens.
  - reflexivity.
  - repeat constructor; vm_compute; reflexivity.
  - exact Hkept.
Defined.

(** ** Defaults of the optional fields *)

Lemma optional_value_defaulted conv dflt a attr :
  escapes conv a attr = false →
  optional_value conv dflt a attr
    = Ok (defaulted conv dflt (act_attrs a !! attr)).
Proof.
  unfold escapes, optional_value, hasattr, getattr, defaulted.
  destruct (act_attrs a !! attr) as [[|o]|] eqn:Hattr; simpl; try done.
  destruct (conv (PyObject o)) as [j|e]; [done|].
  by destruct (field_error e).
Qed.

Lemma set_properties_defaulted conv dflt a properties (result : record) :
  contained conv a properties = true →
  NoDup properties.*1 →
  ∃ result' : record,
    set_properties conv dflt a properties result = Ok result' ∧
    Forall (λ p, result' !! p.1
                 = Some (defaulted conv dflt (act_attrs a !! p.2)))
      properties.
Proof.
  revert result.
  induction properties as [|[key attr] rest IH]; intros result; simpl.
  - intros _ _. by exists result.
  - intros [Hhere Hrest]%andb_true_iff [Hfresh Hnd]%NoDup_cons.
    apply negb_true_iff in Hhere.
    rewrite (optional_value_defaulted _ dflt _ _ Hhere). simpl.
    destruct (IH (<[key := defaulted conv dflt (act_attrs a !! attr)]> result)
                Hrest Hnd) as (result' & Hset & Hall).
    exists result'. split; [done|]. constructor; [|done]. simpl.
    rewrite (set_properties_other _ _ _ _ _ _ _ Hset Hfresh).
    apply lookup_insert_eq.
Qed.

(** A failure in the required core sends the conversion to the fallback
    dictionary. *)
Lemma activity_to_dict_fallback a :
  is_ok (base_dict a) = false → activity_to_dict a = minimal_dict a.
Proof.
  unfold activity_to_dict, full_dict.
  by destruct (base_dict a).
Qed.

Lemma minimal_dict_keys a (d : record) k :
  minimal_dict a = Ok d →
  k ∉ ["id"; "name"; "start_date_local"; "type"; "distance";
       "moving_time"; "elapsed_time"] →
  d !! k = None.
Proof.
  unfold minimal_dict. intros H Hk. bind_inv H. injection H as <-.
  rewrite !not_elem_of_cons in Hk.
  destruct Hk as (? & ? & ? & ? & ? & ? & ? & _).
  by rewrite !lookup_insert_ne by done.
Qed.

(** Splits a hypothesis [Forall P l] over a closed list into its
    members, and a goal of that shape into one goal per member. *)
Ltac each_property H :=
  repeat (apply Forall_cons in H as [? H]);
  repeat first [ apply Forall_nil_2 | apply Forall_cons_2 ];
  cbn [fst snd] in *.

(** The key of the goal is outside the loops [H], so they left it as it
    was. *)
Ltac untouched_by H :=
  rewrite (set_properties_other _ _ _ _ _ _ _ H) by closed_notin.

(** C8, as the code has it. Missing-field defaulting holds for the
    conversions that complete the [try] block: when the required core
    converts and no optional conversion raises an exception other than
    [AttributeError], [TypeError] or [ValueError], the record has every
    optional key, each holding the converted attribute or, when the
    attribute is absent, [None] or not convertible, the default of its
    type; in particular an activity without [average_watts] gets
    [average_watts: null]. *)
Theorem optional_fields_defaulted a :
  is_ok (base_dict a) = true →
  contained conv_float a float_properties = true →
  contained conv_int a int_properties = true →
  contained conv_str a str_properties = true →
  contained conv_bool a bool_properties = true →
  ∃ d : record,
    activity_to_dict a = Ok d ∧
    (act_attrs a !! "average_watts" = None →
     d !! "average_watts" = Some JNull) ∧
    Forall (λ p, d !! p.1
                 = Some (defaulted conv_float JNull (act_attrs a !! p.2)))
      float_properties ∧
    Forall (λ p, d !! p.1
                 = Some (defaulted conv_int (JInt 0) (act_attrs a !! p.2)))
      int_properties ∧
    Forall (λ p, d !! p.1
                 = Some (defaulted conv_str JNull (act_attrs a !! p.2)))
      str_properties ∧
    Forall (λ p, d !! p.1
                 = Some (defaulted conv_bool (JBool false)
                           (act_attrs a !! p.2)))
      bool_properties.
Proof.
  intros Hbase Hfloat Hint Hstr Hbool.
  destruct (base_dict a) as [d0|] eqn:Hd0; [clear Hbase|done].
  destruct (set_properties_defaulted conv_float JNull a float_properties d0
              Hfloat) as (d1 & H1 & Hall1).
  { apply (bool_decide_unpack _). vm_compute. exact I. }
  destruct (set_properties_defaulted conv_int (JInt 0) a int_properties d1
              Hint) as (d2 & H2 & Hall2).
  { apply (bool_decide_unpack _). vm_compute. exact I. }
  destruct (set_properties_defaulted conv_str JNull a str_properties d2
              Hstr) as (d3 & H3 & Hall3).
  { apply (bool_decide_unpack _). vm_compute. exact I. }
  destruct (set_properties_defaulted conv_bool (JBool false) a
              bool_properties d3 Hbool) as (d & H4 & Hall4).
  { apply (bool_decide_unpack _). vm_compute. exact I. }
  assert (full_dict a = Ok d) as Hfull.
  { unfold full_dict.
    apply bind_Ok. exists d0. split; [done|].
    apply bind_Ok. exists d1. split; [done|].
    apply bind_Ok. exists d2. split; [done|].
    apply bind_Ok. exists d3. split; done. }
  exists d. unfold activity_to_dict. rewrite Hfull. split; [done|].
  assert (Forall (λ p, d !! p.1
                   = Some (defaulted conv_float JNull (act_attrs a !! p.2)))
            float_properties) as Hfloats.
  { each_property Hall1;
      untouched_by H4; untouched_by H3; untouched_by H2; done. }
  split; [|split; [done|split; [|split]]].
  - intros Habsent. rewrite Forall_forall in Hfloats.
    specialize (Hfloats ("average_watts", "average_watts")).
    cbn [fst snd] in Hfloats. rewrite Hfloats, Habsent; [done|].
    set_solver.
  - each_property Hall2; untouched_by H4; untouched_by H3; done.
  - each_property Hall3; untouched_by H4; done.
  - done.
Qed.

Lemma optional_fields_defaulted_witness :
  let a :=
    Samples.with_attr "kudos_count" (Samples.int_obj 3)
      (Samples.with_attr "gear_id" (Samples.text_obj "b123")
         (Samples.with_attr "average_heartrate" PyNone
            (Samples.with_attr "max_speed" (Samples.text_obj "fast")
               (Samples.bare 10 "2024-01-02")))) in
  ∃ d : record,
    activity_to_dict a = Ok d ∧
    d !! "average_watts" = Some JNull ∧
    d !! "kudos_count" = Some (JInt 3) ∧
    d !! "max_speed" = Some JNull.
Proof.
  intros a.
  destruct (optional_fields_defaulted a)
    as (d & Hd & Hwatts & Hfloat & Hint & _);
    try (vm_compute; reflexivity).
  exists d. split; [exact Hd|]. split; [|split].
  - apply Hwatts. vm_compute. reflexivity.
  - apply Forall_cons in Hint as [Hkudos _]. cbn [fst snd] in Hkudos.
    rewrite Hkudos. vm_compute. reflexivity.
  - apply Forall_cons in Hfloat as [_ Hfloat].
    apply Forall_cons in Hfloat as [_ Hfloat].
    apply Forall_cons in Hfloat as [Hspeed _]. cbn [fst snd] in Hspeed.
    rewrite Hspeed. vm_compute. reflexivity.
Defined.

Lemma minimal_dict_ok a :
  is_ok (minimal_dict a) = true → ∃ d, minimal_dict a = Ok d.
Proof. destruct (minimal_dict a); [eauto|done]. Qed.

(** C8 as stated fails: an activity without [average_watts] whose
    [moving_time] has no integer conversion (a [timedelta]) is normalized
    to the fallback dictionary, which has no [average_watts] key. *)
Lemma optional_fields_defaulted_counterexample :
  let a :=
    Samples.with_attr "moving_time" (Samples.plain_obj "0:10:00")
      (Samples.bare 10 "2024-01-02") in
  act_attrs a !! "average_watts" = None ∧
  ∃ d : record,
    activity_to_dict a = Ok d ∧ d !! "average_watts" = None ∧
    d !! "id" = Some (JInt 10).
Proof.
  intros a. split; [vm_compute; reflexivity|].
  rewrite activity_to_dict_fallback by (vm_compute; reflexivity).
  destruct (minimal_dict_ok a) as [d Hd]; [vm_compute; reflexivity|].
  exists d. split; [done|]. split.
  - apply (minimal_dict_keys a d _ Hd). closed_notin.
  - destruct (minimal_dict_id a d Hd) as (n & s & Hn & _ & Hid & _).
    vm_compute in Hn. injection Hn as <-. exact Hid.
Qed.

(** ** The authorization flow *)

(** Every way out of the flow leaves the listener stopped. *)
Lemma listener_always_stopped cfg w creds :
  Authorize.listening (Authorize.main cfg w (starting creds)).1 = false.
Proof.
  unfold Authorize.main, Authorize.try_finally, Authorize.create_local_server,
    Authorize.wait_for_code, Authorize.write_credentials, Authorize.call,
    Authorize.stop_server, mbind, Authorize.flow_bind.
  destruct (negb _); [done|].
  destruct (Authorize.bind_port w _); simpl; [|done].
  destruct (Authorize.authorization_url w _ _); simpl; [|done].
  destruct (Authorize.webbrowser_open w _); simpl; [|done].
  destruct (Authorize.queue_get w _); simpl; [|done].
  by destruct (Authorize.exchange_code_for_token w _ _ _).
Qed.

(** C9. Authorization timeout: when no code reaches the queue within the
    60 seconds of the wait, the flow fails, the listener is stopped (as it
    is on every way out, by [listener_always_stopped]) and the credentials
    file is not written; when the flow got as far as the wait, what it
    raises is the timeout of the queue. *)
Theorem authorization_timeout cfg w creds :
  Authorize.queue_get w 60 = None →
  let run := Authorize.main cfg w (starting creds) in
  (∃ e, run.2 = Raise e) ∧
  Authorize.listening run.1 = false ∧
  Authorize.credentials run.1 = creds ∧
  (truthy (CLIENT_ID cfg) = true → truthy (CLIENT_SECRET cfg) = true →
   is_ok (Authorize.bind_port w 8000) = true →
   is_ok (Authorize.authorization_url w (CLIENT_ID cfg)
            "http://localhost:8000") = true →
   (∀ url, is_ok (Authorize.webbrowser_open w url) = true) →
   run.2 = Raise QueueEmpty).
Proof.
  intros Hwait run.
  split; [|split; [apply listener_always_stopped|]]; unfold run;
    unfold Authorize.main, Authorize.try_finally,
      Authorize.create_local_server, Authorize.wait_for_code,
      Authorize.write_credentials, Authorize.call, Authorize.stop_server,
      mbind, Authorize.flow_bind; rewrite Hwait.
  - destruct (negb _); [by eexists|].
    destruct (Authorize.bind_port w _); simpl; [|by eexists].
    destruct (Authorize.authorization_url w _ _); simpl; [|by eexists].
    destruct (Authorize.webbrowser_open w _); simpl; by eexists.
  - split.
    + destruct (negb _); [done|].
      destruct (Authorize.bind_port w _); simpl; [|done].
      destruct (Authorize.authorization_url w _ _); simpl; [|done].
      by destruct (Authorize.webbrowser_open w _).
    + intros -> -> Hbind Hurl Hopen. simpl.
      destruct (Authorize.bind_port w _); simpl; [|done].
      change (pretty 8000%Z) with "8000" in *.
      destruct (Authorize.authorization_url w _ _) as [url|]; simpl; [|done].
      specialize (Hopen url).
      by destruct (Authorize.webbrowser_open w url).
Qed.

Lemma authorization_timeout_witness :
  let silent :=
    {| Authorize.bind_port := λ _, Ok ();
       Authorize.authorization_url := λ _ redirect, Ok redirect;
       Authorize.webbrowser_open := λ _, Ok ();
       Authorize.queue_get := λ _, None;
       Authorize.exchange_code_for_token := λ _ _ _, Ok Samples.tokens |} in
  let run :=
    Authorize.main Samples.cfg silent (starting (Some "CLIENT_ID=42")) in
  run.2 = Raise QueueEmpty ∧
  Authorize.listening run.1 = false ∧
  Authorize.credentials run.1 = Some "CLIENT_ID=42".
Proof.
  intros silent run.
  destruct (authorization_timeout Samples.cfg silent (Some "CLIENT_ID=42")
              eq_refl) as (_ & Hstop & Hcreds & Hraise).
  split; [|split; [exact Hstop|exact Hcreds]].
  apply Hraise; reflexivity.
Defined.

(** On the way out through success the credentials are written and the
    listener is stopped all the same. *)
Lemma authorization_success :
  let answering :=
    {| Authorize.bind_port := λ _, Ok ();
       Authorize.authorization_url := λ _ redirect, Ok redirect;
       Authorize.webbrowser_open := λ _, Ok ();
       Authorize.queue_get := λ _, Some "code";
       Authorize.exchange_code_for_token := λ _ _ _, Ok Samples.tokens |} in
  Authorize.main Samples.cfg answering (starting None) =
    ({| Authorize.listening := false; Authorize.server := true;
        Authorize.credentials :=
          Some ("ACCESS_TOKEN=a1" +:+ nl +:+ "REFRESH_TOKEN=r1" +:+ nl) |},
     Ok ()).
Proof. vm_compute. reflexivity. Qed.

(** ** The credentials file *)

Lemma app_cons c r s : String c r +:+ s = String c (r +:+ s).
Proof. reflexivity. Qed.

Lemma app_empty_l s : "" +:+ s = s.
Proof. reflexivity. Qed.

Lemma str_app_assoc a b c : (a +:+ b) +:+ c = a +:+ b +:+ c.
Proof.
  induction a as [|x a IH]; [done|]. by rewrite !app_cons, IH.
Qed.

Lemma str_app_empty_r s : s +:+ "" = s.
Proof. induction s as [|c s IH]; [done|]. by rewrite app_cons, IH. Qed.

Lemma writelines_cons line lines :
  writelines (line :: lines) = line +:+ writelines lines.
Proof. reflexivity. Qed.

Lemma writelines_app lines lines' :
  writelines (lines ++ lines') = writelines lines +:+ writelines lines'.
Proof.
  induction lines as [|line lines IH]; [done|].
  rewrite <- app_comm_cons, !writelines_cons, IH. by rewrite str_app_assoc.
Qed.

Lemma no_newline_cons c s :
  no_newline (String c s) = true ↔
  Ascii.eqb c newline = false ∧ Ascii.eqb c carriage_return = false ∧
  no_newline s = true.
Proof.
  simpl. rewrite !andb_true_iff, !negb_true_iff. tauto.
Qed.

Lemma complete_app_nl body : no_newline body = true → complete (body +:+ nl) = true.
Proof.
  induction body as [|c rest IH]; [done|].
  rewrite app_cons. intros (Hc & _ & Hrest)%no_newline_cons.
  simpl. rewrite Hc. by apply IH.
Qed.

(** *** Line endings *)

Lemma no_newline_no_return s : no_newline s = true → no_return s = true.
Proof.
  induction s as [|c s IH]; [done|].
  intros (_ & Hc & Hs)%no_newline_cons. simpl. by rewrite Hc, IH.
Qed.

Lemma no_return_app a b : no_return (a +:+ b) = no_return a && no_return b.
Proof.
  induction a as [|c a IH]; [done|].
  rewrite app_cons. simpl. by rewrite IH, andb_assoc.
Qed.

Lemma no_return_writelines lines :
  no_return (writelines lines) = true ↔
  Forall (λ line, no_return line = true) lines.
Proof.
  induction lines as [|line lines IH]; [by split|].
  rewrite writelines_cons, no_return_app, andb_true_iff, Forall_cons.
  by rewrite IH.
Qed.

(** A text without carriage returns is read as it is. *)
Lemma universal_fixed s : no_return s = true → universal_newlines s = s.
Proof.
  unfold universal_newlines. induction s as [|c s IH]; [done|]. simpl.
  intros [Hc Hs]%andb_true_iff. apply negb_true_iff in Hc.
  by rewrite Hc, andb_false_r, IH.
Qed.

(** What is read holds no carriage return. *)
Lemma translate_no_return pending s : no_return (translate pending s) = true.
Proof.
  revert pending. induction s as [|c s IH]; intros pending; [done|]. simpl.
  destruct (Ascii.eqb c carriage_return) eqn:Hc; [simpl; by rewrite IH|].
  destruct (Ascii.eqb c newline && pending); [done|].
  simpl. by rewrite Hc, IH.
Qed.

(** *** Cutting a text into lines *)

Lemma cut_lines_complete line text :
  complete line = true → cut_lines (line +:+ text) = line :: cut_lines text.
Proof.
  induction line as [|c rest IH]; [done|].
  rewrite app_cons. simpl.
  destruct (Ascii.eqb c newline).
  - intros ->%String.eqb_eq. by rewrite app_empty_l.
  - intros Hrest. by rewrite (IH Hrest).
Qed.

Lemma cut_lines_writelines lines :
  Forall (λ line, complete line = true) lines →
  cut_lines (writelines lines) = lines.
Proof.
  induction 1 as [|line lines Hline _ IH]; [done|].
  by rewrite writelines_cons, (cut_lines_complete _ _ Hline), IH.
Qed.

(** The lines cut from a text make up the text. *)
Lemma writelines_cut_lines text : writelines (cut_lines text) = text.
Proof.
  induction text as [|c text IH]; [done|]. simpl.
  destruct (Ascii.eqb c newline).
  - by rewrite writelines_cons, IH.
  - destruct (cut_lines text) as [|line lines].
    + rewrite writelines_cons. simpl in IH. by rewrite <- IH.
    + rewrite writelines_cons, app_cons. f_equal.
      by rewrite writelines_cons in IH.
Qed.

Lemma complete_cons c line :
  Ascii.eqb c newline = false → complete (String c line) = complete line.
Proof. simpl. by intros ->. Qed.

Lemma partial_cons c line :
  Ascii.eqb c newline = false →
  partial line = true → partial (String c line) = true.
Proof.
  unfold partial. simpl. intros -> [_ Hline]%andb_true_iff. by rewrite Hline.
Qed.

Lemma cut_lines_wf text : lines_wf (cut_lines text) = true.
Proof.
  induction text as [|c text IH]; [done|]. simpl.
  destruct (Ascii.eqb c newline) eqn:Hc.
  - assert (complete (String c "") = true) as Hline by (simpl; by rewrite Hc).
    destruct (cut_lines text) as [|line lines]; simpl in *.
    + by rewrite Hc.
    + rewrite Hc. simpl. done.
  - destruct (cut_lines text) as [|line [|line' lines]].
    + simpl. unfold partial. simpl. rewrite Hc. by rewrite orb_true_r.
    + simpl in IH. cbn [lines_wf].
      apply orb_true_iff in IH as [Hline|Hline].
      * by rewrite (complete_cons _ _ Hc), Hline.
      * by rewrite (partial_cons _ _ Hc Hline), orb_true_r.
    + cbn [lines_wf] in *. apply andb_true_iff in IH as [Hline Hrest].
      by rewrite (complete_cons _ _ Hc), Hline.
Qed.

Lemma cut_lines_partial line :
  partial line = true → cut_lines line = [line].
Proof.
  unfold partial. induction line as [|c line IH]; [done|]. simpl.
  intros Hline. apply andb_true_iff in Hline as [Hc Hline].
  apply negb_true_iff in Hc. rewrite Hc.
  destruct line as [|c' line']; [done|].
  by rewrite IH.
Qed.

Lemma cut_lines_writelines_wf lines :
  lines_wf lines = true → cut_lines (writelines lines) = lines.
Proof.
  induction lines as [|line [|line' lines] IH]; [done|..].
  - cbn [lines_wf]. rewrite writelines_cons. simpl (writelines []).
    rewrite str_app_empty_r.
    intros [Hline|Hline]%orb_true_iff.
    + rewrite <- (str_app_empty_r line) at 1.
      by rewrite (cut_lines_complete _ _ Hline).
    + by apply cut_lines_partial.
  - cbn [lines_wf]. intros [Hline Hrest]%andb_true_iff.
    rewrite writelines_cons, (cut_lines_complete _ _ Hline).
    f_equal. by apply IH.
Qed.

(** *** Reading and writing lines *)

(** The lines read make up the text, with its line endings translated. *)
Lemma writelines_readlines text :
  writelines (readlines text) = universal_newlines text.
Proof. apply writelines_cut_lines. Qed.

Lemma readlines_no_return text :
  Forall (λ line, no_return line = true) (readlines text).
Proof.
  apply no_return_writelines. rewrite writelines_readlines.
  apply translate_no_return.
Qed.

Lemma lines_of_no_return env :
  Forall (λ line, no_return line = true) (lines_of env).
Proof. destruct env as [text|]; [apply readlines_no_return|done]. Qed.

Lemma readlines_wf text : lines_wf (readlines text) = true.
Proof. apply cut_lines_wf. Qed.

(** Reading back what [writelines] wrote gives the lines written, when
    each of them ends with its line feed and none holds a carriage
    return. *)
Lemma readlines_writelines lines :
  Forall (λ line, complete line = true) lines →
  Forall (λ line, no_return line = true) lines →
  readlines (writelines lines) = lines.
Proof.
  intros Hlines Hreturn. unfold readlines.
  rewrite universal_fixed; [by apply cut_lines_writelines|].
  by apply no_return_writelines.
Qed.

Lemma readlines_writelines_wf lines :
  lines_wf lines = true →
  Forall (λ line, no_return line = true) lines →
  readlines (writelines lines) = lines.
Proof.
  intros Hlines Hreturn. unfold readlines.
  rewrite universal_fixed; [by apply cut_lines_writelines_wf|].
  by apply no_return_writelines.
Qed.

(** *** The loop as a map *)

Lemma prefix_cons a p b s :
  String.prefix (String a p) (String b s) =
    match ascii_dec a b with
    | left _ => String.prefix p s
    | right _ => false
    end.
Proof. reflexivity. Qed.

Lemma access_not_refresh line : is_access line = true → is_refresh line = false.
Proof.
  unfold is_access, is_refresh, startswith.
  destruct line as [|c rest]; [done|].
  rewrite !prefix_cons.
  destruct (ascii_dec "A" c) as [<-|]; [|done]. intros _.
  by destruct (ascii_dec "R" "A").
Qed.

Lemma refresh_not_access line : is_refresh line = true → is_access line = false.
Proof.
  intros Href. destruct (is_access line) eqn:Hacc; [|done].
  by rewrite (access_not_refresh _ Hacc) in Href.
Qed.

Lemma foldl_env_step t st lines :
  foldl (env_step t) st lines =
    {| new_lines := new_lines st ++ (replaced t <$> lines);
       access_updated := access_updated st || existsb is_access lines;
       refresh_updated := refresh_updated st || existsb is_refresh lines |}.
Proof.
  revert st. induction lines as [|line lines IH]; intros [out a r]; simpl.
  - by rewrite app_nil_r, !orb_false_r.
  - rewrite IH. unfold env_step, replaced. fold (is_access line).
    fold (is_refresh line).
    destruct (is_access line) eqn:Ha; simpl.
    + rewrite (access_not_refresh _ Ha). simpl.
      by rewrite <- app_assoc, orb_true_r.
    + destruct (is_refresh line); simpl;
        by rewrite <- app_assoc, ?orb_true_r.
Qed.

(** The lines written: every line read, with the token lines replaced in
    place, then the token lines that were not there. *)
Lemma updated_lines_eq t lines :
  updated_lines t lines =
    (replaced t <$> lines)
    ++ (if existsb is_access lines then [] else [access_line t])
    ++ (if existsb is_refresh lines then [] else [refresh_line t]).
Proof.
  unfold updated_lines. rewrite foldl_env_step. simpl.
  destruct (existsb is_access lines), (existsb is_refresh lines);
    by rewrite <- ?app_assoc, ?app_nil_r.
Qed.

(** *** Keys and values of lines *)

Lemma prefix_inv p s : String.prefix p s = true → ∃ x, s = p +:+ x.
Proof.
  revert s. induction p as [|a p IH]; intros s.
  - by exists s.
  - destruct s as [|b s]; [done|]. rewrite prefix_cons.
    destruct (ascii_dec a b) as [<-|]; [|done].
    intros [x ->]%IH. by exists x.
Qed.

Lemma prefix_app p x : String.prefix p (p +:+ x) = true.
Proof.
  induction p as [|a p IH]; [by destruct x|].
  rewrite app_cons, prefix_cons. by destruct (ascii_dec a a).
Qed.

Lemma no_newline_app a b :
  no_newline (a +:+ b) = no_newline a && no_newline b.
Proof.
  induction a as [|c a IH]; [done|].
  rewrite app_cons. simpl. by rewrite IH, andb_assoc.
Qed.

Lemma key_like_no_newline k : key_like k = true → no_newline k = true.
Proof.
  induction k as [|c k IH]; [done|]. simpl.
  intros [[-> _]%andb_true_iff Hk]%andb_true_iff. by apply IH.
Qed.

Lemma chomp_app p x : no_newline p = true → chomp (p +:+ x) = p +:+ chomp x.
Proof.
  induction p as [|c p IH]; [done|].
  rewrite !app_cons. intros (Hc & _ & Hp)%no_newline_cons.
  simpl. rewrite Hc. by rewrite IH.
Qed.

Lemma chomp_app_nl body : no_newline body = true → chomp (body +:+ nl) = body.
Proof.
  induction body as [|c body IH]; [done|].
  rewrite !app_cons. intros (Hc & _ & Hp)%no_newline_cons.
  simpl. rewrite Hc. by rewrite IH.
Qed.

Lemma chomp_prefix line : ∃ rest, line = chomp line +:+ rest.
Proof.
  induction line as [|c line [rest IH]]; [by exists ""|]. simpl.
  destruct (Ascii.eqb c newline), line as [|c' line'];
    try (by eexists (String c ""));
    exists rest; by rewrite app_cons, <- IH.
Qed.

Lemma split_eq_app k v : key_like k = true → split_eq (k +:+ "=" +:+ v) = Some (k, v).
Proof.
  induction k as [|c k IH]; [done|].
  rewrite app_cons. simpl.
  intros [[_ Hc]%andb_true_iff Hk]%andb_true_iff.
  apply negb_true_iff in Hc. rewrite Hc. by rewrite IH.
Qed.

Lemma split_eq_inv s k v : split_eq s = Some (k, v) → s = k +:+ "=" +:+ v.
Proof.
  revert k. induction s as [|c s IH]; intros k; [done|]. simpl.
  destruct (Ascii.eqb c "=") eqn:Hc.
  - apply Ascii.eqb_eq in Hc as ->. by intros [= <- <-].
  - destruct (split_eq s) as [[k' v']|]; [|done].
    intros [= <- <-]. by rewrite app_cons, <- (IH k').
Qed.

(** A line starts with [k=] exactly when its key is [k]. *)
Lemma line_key_prefix k line :
  key_like k = true →
  startswith line (k +:+ "=") = true → line_key line = Some k.
Proof.
  intros Hk [x ->]%prefix_inv. unfold line_key, parse_line.
  rewrite chomp_app, str_app_assoc, (split_eq_app _ _ Hk); [done|].
  rewrite no_newline_app. by rewrite (key_like_no_newline _ Hk).
Qed.

Lemma line_key_prefix_inv k line :
  line_key line = Some k → startswith line (k +:+ "=") = true.
Proof.
  unfold line_key, parse_line, startswith.
  destruct (split_eq (chomp line)) as [[k' v]|] eqn:Hsplit; [|done].
  intros [= ->]. apply split_eq_inv in Hsplit.
  destruct (chomp_prefix line) as [rest Hline].
  rewrite Hline, Hsplit, <- (str_app_assoc k), str_app_assoc.
  apply prefix_app.
Qed.

(** The line written for a key parses to the key and the value. *)
Lemma parse_written k v :
  key_like k = true → no_newline v = true →
  parse_line ((k +:+ "=") +:+ v +:+ nl) = Some (k, v).
Proof.
  intros Hk Hv. unfold parse_line.
  rewrite <- (str_app_assoc _ v nl), chomp_app_nl, str_app_assoc.
  - by apply split_eq_app.
  - rewrite !no_newline_app, Hv. by rewrite (key_like_no_newline _ Hk).
Qed.

Lemma parse_access_line t :
  no_newline (access_token t) = true →
  parse_line (access_line t) = Some ("ACCESS_TOKEN", access_token t).
Proof. intros Ht. by apply (parse_written "ACCESS_TOKEN"). Qed.

Lemma parse_refresh_line t :
  no_newline (refresh_token t) = true →
  parse_line (refresh_line t) = Some ("REFRESH_TOKEN", refresh_token t).
Proof. intros Ht. by apply (parse_written "REFRESH_TOKEN"). Qed.

Lemma is_access_key line :
  is_access line = true ↔ line_key line = Some "ACCESS_TOKEN".
Proof.
  split.
  - by apply (line_key_prefix "ACCESS_TOKEN").
  - apply (line_key_prefix_inv "ACCESS_TOKEN").
Qed.

Lemma is_refresh_key line :
  is_refresh line = true ↔ line_key line = Some "REFRESH_TOKEN".
Proof.
  split.
  - by apply (line_key_prefix "REFRESH_TOKEN").
  - apply (line_key_prefix_inv "REFRESH_TOKEN").
Qed.

(** *** Writing, then reading *)

#[local] Arguments access_line : simpl never.
#[local] Arguments refresh_line : simpl never.
#[local] Arguments line_key : simpl never.
#[local] Arguments parse_line : simpl never.

Lemma complete_access_line t :
  no_newline (access_token t) = true → complete (access_line t) = true.
Proof.
  intros Ht. unfold access_line. rewrite <- str_app_assoc.
  apply complete_app_nl. by rewrite no_newline_app, Ht.
Qed.

Lemma complete_refresh_line t :
  no_newline (refresh_token t) = true → complete (refresh_line t) = true.
Proof.
  intros Ht. unfold refresh_line. rewrite <- str_app_assoc.
  apply complete_app_nl. by rewrite no_newline_app, Ht.
Qed.

Lemma no_return_access_line t :
  no_newline (access_token t) = true → no_return (access_line t) = true.
Proof.
  intros Ht%no_newline_no_return. unfold access_line.
  by rewrite !no_return_app, Ht.
Qed.

Lemma no_return_refresh_line t :
  no_newline (refresh_token t) = true → no_return (refresh_line t) = true.
Proof.
  intros Ht%no_newline_no_return. unfold refresh_line.
  by rewrite !no_return_app, Ht.
Qed.

Lemma is_access_access_line t : is_access (access_line t) = true.
Proof. apply prefix_app. Qed.

Lemma is_refresh_refresh_line t : is_refresh (refresh_line t) = true.
Proof. apply prefix_app. Qed.

Lemma replaced_complete t line :
  no_newline (access_token t) = true → no_newline (refresh_token t) = true →
  complete line = true → complete (replaced t line) = true.
Proof.
  intros Ha Hr Hline. unfold replaced.
  destruct (is_access line); [by apply complete_access_line|].
  destruct (is_refresh line); [by apply complete_refresh_line|done].
Qed.

Lemma replaced_no_return t line :
  no_newline (access_token t) = true → no_newline (refresh_token t) = true →
  no_return line = true → no_return (replaced t line) = true.
Proof.
  intros Ha Hr Hline. unfold replaced.
  destruct (is_access line); [by apply no_return_access_line|].
  destruct (is_refresh line); [by apply no_return_refresh_line|done].
Qed.

Lemma replaced_key t line :
  no_newline (access_token t) = true → no_newline (refresh_token t) = true →
  line_key (replaced t line) = line_key line.
Proof.
  intros Ha Hr. unfold replaced.
  destruct (is_access line) eqn:Hacc.
  - apply is_access_key in Hacc as ->.
    unfold line_key. by rewrite parse_access_line.
  - destruct (is_refresh line) eqn:Href; [|done].
    apply is_refresh_key in Href as ->.
    unfold line_key. by rewrite parse_refresh_line.
Qed.

Lemma replaced_other t line :
  is_token_line line = false → replaced t line = line.
Proof.
  unfold is_token_line, replaced.
  by intros [-> ->]%orb_false_iff.
Qed.

Lemma replaced_token t line :
  is_token_line line = true → is_token_line (replaced t line) = true.
Proof.
  unfold is_token_line, replaced.
  destruct (is_access line) eqn:Hacc.
  - intros _. by rewrite is_access_access_line.
  - simpl. intros ->. by rewrite is_refresh_refresh_line, orb_true_r.
Qed.

Lemma existsb_is_access lines :
  existsb is_access lines = false →
  "ACCESS_TOKEN" ∉ omap line_key lines.
Proof.
  intros Hnone (line & Hin & Hkey)%list_elem_of_omap.
  apply is_access_key in Hkey.
  assert (existsb is_access lines = true) as Hsome; [|congruence].
  apply existsb_exists. exists line. split; [by apply list_elem_of_In|done].
Qed.

Lemma existsb_is_refresh lines :
  existsb is_refresh lines = false →
  "REFRESH_TOKEN" ∉ omap line_key lines.
Proof.
  intros Hnone (line & Hin & Hkey)%list_elem_of_omap.
  apply is_refresh_key in Hkey.
  assert (existsb is_refresh lines = true) as Hsome; [|congruence].
  apply existsb_exists. exists line. split; [by apply list_elem_of_In|done].
Qed.

(** The keys of the lines written: the keys read, then the token keys
    that were missing. *)
Lemma updated_lines_keys t lines :
  no_newline (access_token t) = true → no_newline (refresh_token t) = true →
  omap line_key (updated_lines t lines) =
    omap line_key lines
    ++ (if existsb is_access lines then [] else ["ACCESS_TOKEN"])
    ++ (if existsb is_refresh lines then [] else ["REFRESH_TOKEN"]).
Proof.
  intros Ha Hr. rewrite updated_lines_eq, !omap_app. f_equal; [|f_equal].
  - induction lines as [|line lines IH]; [done|]. csimpl.
    by rewrite (replaced_key t line Ha Hr), IH.
  - destruct (existsb is_access lines); [done|].
    assert (line_key (access_line t) = Some "ACCESS_TOKEN") as Hkey.
    { unfold line_key. by rewrite parse_access_line. }
    unfold omap, list_omap. by rewrite Hkey.
  - destruct (existsb is_refresh lines); [done|].
    assert (line_key (refresh_line t) = Some "REFRESH_TOKEN") as Hkey.
    { unfold line_key. by rewrite parse_refresh_line. }
    unfold omap, list_omap. by rewrite Hkey.
Qed.

Lemma read_lines_lookup lines (env : gmap string string) k v :
  (∀ line v', line ∈ lines → parse_line line = Some (k, v') → v' = v) →
  (∃ line, line ∈ lines ∧ parse_line line = Some (k, v)) ∨ env !! k = Some v →
  foldl bind_line env lines !! k = Some v.
Proof.
  revert env. induction lines as [|line lines IH]; intros env Hall Hsome.
  - destruct Hsome as [(line & Hin & _)|Hk]; [by apply elem_of_nil in Hin|done].
  - simpl. apply IH.
    + intros line' v' Hin. apply Hall. by right.
    + destruct Hsome as [(line' & [->|Hin]%elem_of_cons & Hparse)|Hk].
      * right. unfold bind_line. rewrite Hparse. apply lookup_insert_eq.
      * left. eauto.
      * right. unfold bind_line.
        destruct (parse_line line) as [[k' v']|] eqn:Hparse; [|done].
        destruct (decide (k' = k)) as [->|Hne].
        -- rewrite (Hall line v'); [apply lookup_insert_eq| by left |done].
        -- by rewrite lookup_insert_ne.
Qed.

Lemma elem_of_updated_lines t lines line :
  line ∈ updated_lines t lines →
  (∃ l, l ∈ lines ∧ line = replaced t l) ∨
  line = access_line t ∨ line = refresh_line t.
Proof.
  rewrite updated_lines_eq, !elem_of_app, list_elem_of_fmap.
  intros [(l & -> & Hl)|[Hin|Hin]]; [left; eauto|right; left|right; right].
  - destruct (existsb is_access lines); [by apply elem_of_nil in Hin|].
    by apply list_elem_of_singleton in Hin.
  - destruct (existsb is_refresh lines); [by apply elem_of_nil in Hin|].
    by apply list_elem_of_singleton in Hin.
Qed.

Lemma access_line_written t lines : access_line t ∈ updated_lines t lines.
Proof.
  rewrite updated_lines_eq, !elem_of_app.
  destruct (existsb is_access lines) eqn:Hacc.
  - left. apply existsb_exists in Hacc as (l & Hl%list_elem_of_In & Hacc).
    apply list_elem_of_fmap. exists l. split; [|done].
    unfold replaced. by rewrite Hacc.
  - right. left. by apply list_elem_of_singleton.
Qed.

Lemma refresh_line_written t lines : refresh_line t ∈ updated_lines t lines.
Proof.
  rewrite updated_lines_eq, !elem_of_app.
  destruct (existsb is_refresh lines) eqn:Href.
  - left. apply existsb_exists in Href as (l & Hl%list_elem_of_In & Href).
    apply list_elem_of_fmap. exists l. split; [|done].
    unfold replaced. rewrite Href.
    destruct (is_access l) eqn:Hacc; [|done].
    by rewrite (access_not_refresh _ Hacc) in Href.
  - right. right. by apply list_elem_of_singleton.
Qed.

Lemma filter_replaced t (lines : list string) :
  filter (λ line, is_token_line line = false) (replaced t <$> lines) =
  filter (λ line, is_token_line line = false) lines.
Proof.
  induction lines as [|line lines IH]; [done|].
  rewrite fmap_cons, !filter_cons, IH.
  destruct (is_token_line line) eqn:Htoken.
  - rewrite (replaced_token t line Htoken). by repeat case_decide.
  - rewrite (replaced_other t line Htoken), Htoken. by repeat case_decide.
Qed.

Lemma is_token_access_line t : is_token_line (access_line t) = true.
Proof. unfold is_token_line. by rewrite is_access_access_line. Qed.

Lemma is_token_refresh_line t : is_token_line (refresh_line t) = true.
Proof.
  unfold is_token_line. by rewrite is_refresh_refresh_line, orb_true_r.
Qed.

Lemma alphanumeric_no_newline c :
  alphanumeric c = true →
  Ascii.eqb c newline = false ∧ Ascii.eqb c carriage_return = false.
Proof. by destruct c as [[] [] [] [] [] [] [] []]. Qed.

Lemma plain_no_newline s : plain s = true → no_newline s = true.
Proof.
  induction s as [|c s IH]; [done|]. simpl.
  intros [[Hfeed Hreturn]%alphanumeric_no_newline Hs]%andb_true_iff.
  by rewrite Hfeed, Hreturn, IH.
Qed.

Lemma updated_lines_no_return t lines :
  no_newline (access_token t) = true → no_newline (refresh_token t) = true →
  Forall (λ line, no_return line = true) lines →
  Forall (λ line, no_return line = true) (updated_lines t lines).
Proof.
  intros Ha Hr Hlines. apply Forall_forall.
  intros line [(l & Hl & ->)|[->| ->]]%elem_of_updated_lines.
  - apply replaced_no_return; try done.
    rewrite Forall_forall in Hlines. by apply Hlines.
  - by apply no_return_access_line.
  - by apply no_return_refresh_line.
Qed.

(** Reading what the update wrote gives the lines it wrote, when every
    line read ended with its line feed. *)
Lemma update_env_file_lines env t :
  Forall (λ line, complete line = true) (lines_of env) →
  no_newline (access_token t) = true →
  no_newline (refresh_token t) = true →
  readlines (writelines (updated_lines t (lines_of env)))
    = updated_lines t (lines_of env).
Proof.
  intros Hlines Ha Hr. apply readlines_writelines.
  - apply Forall_forall.
    intros line [(l & Hl & ->)|[->| ->]]%elem_of_updated_lines.
    + apply replaced_complete; try done.
      rewrite Forall_forall in Hlines. by apply Hlines.
    + by apply complete_access_line.
    + by apply complete_refresh_line.
  - apply updated_lines_no_return; try done. apply lines_of_no_return.
Qed.

(** Every line written that starts with [ACCESS_TOKEN=] is the new one,
    and the same for [REFRESH_TOKEN=]. *)
Lemma only_access_line t lines line :
  line ∈ updated_lines t lines → is_access line = true →
  line = access_line t.
Proof.
  intros [(l & Hl & ->)|[->| ->]]%elem_of_updated_lines; [|done|].
  - unfold replaced. destruct (is_access l) eqn:Hacc; [done|].
    destruct (is_refresh l) eqn:Href; [|congruence].
    intros H. by rewrite (refresh_not_access _ (is_refresh_refresh_line t)) in H.
  - intros H. by rewrite (refresh_not_access _ (is_refresh_refresh_line t)) in H.
Qed.

Lemma only_refresh_line t lines line :
  line ∈ updated_lines t lines → is_refresh line = true →
  line = refresh_line t.
Proof.
  intros [(l & Hl & ->)|[->| ->]]%elem_of_updated_lines; [| |done].
  - unfold replaced. destruct (is_access l) eqn:Hacc.
    + intros H. by rewrite (access_not_refresh _ (is_access_access_line t)) in H.
    + destruct (is_refresh l) eqn:Href; [done|congruence].
  - intros H. by rewrite (access_not_refresh _ (is_access_access_line t)) in H.
Qed.

(** What a reader finds for the two token keys in the lines written. *)
Lemma read_back_tokens t lines :
  no_newline (access_token t) = true → no_newline (refresh_token t) = true →
  foldl bind_line ∅ (updated_lines t lines) !! "ACCESS_TOKEN"
    = Some (access_token t) ∧
  foldl bind_line ∅ (updated_lines t lines) !! "REFRESH_TOKEN"
    = Some (refresh_token t).
Proof.
  intros Ha Hr. split; apply read_lines_lookup.
  - intros line v' [(l & Hl & ->)|[->| ->]]%elem_of_updated_lines Hparse.
    + assert (is_access l = true) as Hacc.
      { apply is_access_key. rewrite <- (replaced_key t l Ha Hr).
        unfold line_key. by rewrite Hparse. }
      unfold replaced in Hparse. rewrite Hacc in Hparse.
      rewrite (parse_access_line t Ha) in Hparse. by injection Hparse.
    + rewrite (parse_access_line t Ha) in Hparse. by injection Hparse.
    + by rewrite (parse_refresh_line t Hr) in Hparse.
  - left. exists (access_line t).
    split; [apply access_line_written|by apply parse_access_line].
  - intros line v' [(l & Hl & ->)|[->| ->]]%elem_of_updated_lines Hparse.
    + assert (is_refresh l = true) as Href.
      { apply is_refresh_key. rewrite <- (replaced_key t l Ha Hr).
        unfold line_key. by rewrite Hparse. }
      unfold replaced in Hparse. rewrite Href in Hparse.
      destruct (is_access l) eqn:Hacc.
      { by rewrite (access_not_refresh _ Hacc) in Href. }
      rewrite (parse_refresh_line t Hr) in Hparse. by injection Hparse.
    + by rewrite (parse_access_line t Ha) in Hparse.
    + rewrite (parse_refresh_line t Hr) in Hparse. by injection Hparse.
  - left. exists (refresh_line t).
    split; [apply refresh_line_written|by apply parse_refresh_line].
Qed.

(** C2, as the code has it.  Credentials-file round trip, for a file in
    which every line read ends with a line ending and for tokens of
    letters and digits.  After [update_env_file]: every line whose key is
    neither [ACCESS_TOKEN] nor [REFRESH_TOKEN] is read where it was read
    before, with the text it was read with, and the lines that are not
    token lines are the same in the same order; the text written ends its
    lines with line feeds only, whatever line endings the old text had;
    the file holds the line of the new access token, every line that
    starts with [ACCESS_TOKEN=] is that line, and the same for the refresh
    token; reading back the two keys, one [KEY=VALUE] per line, gives the
    new tokens; if every line was a key=value pair, every line still is;
    and the lines written have the keys of the lines read, followed by the
    token keys that were missing, so that no key appears twice if none did
    before. *)
Theorem credentials_round_trip env t text' :
  Forall (λ line, complete line = true) (lines_of env) →
  plain (access_token t) = true →
  plain (refresh_token t) = true →
  update_env_file env t = Some text' →
  (∀ i line, lines_of env !! i = Some line →
     line_key line ≠ Some "ACCESS_TOKEN" →
     line_key line ≠ Some "REFRESH_TOKEN" →
     readlines text' !! i = Some line) ∧
  filter (λ line, is_token_line line = false) (readlines text') =
    filter (λ line, is_token_line line = false) (lines_of env) ∧
  no_return text' = true ∧
  (access_line t ∈ readlines text' ∧
   ∀ line, line ∈ readlines text' → is_access line = true →
           line = access_line t) ∧
  (refresh_line t ∈ readlines text' ∧
   ∀ line, line ∈ readlines text' → is_refresh line = true →
           line = refresh_line t) ∧
  read_env text' !! "ACCESS_TOKEN" = Some (access_token t) ∧
  read_env text' !! "REFRESH_TOKEN" = Some (refresh_token t) ∧
  (Forall (λ line, is_Some (parse_line line)) (lines_of env) →
   Forall (λ line, is_Some (parse_line line)) (readlines text')) ∧
  (NoDup (omap line_key (lines_of env)) →
   NoDup (omap line_key (readlines text'))).
Proof.
  intros Hlines Ha%plain_no_newline Hr%plain_no_newline [= <-].
  fold (lines_of env).
  pose proof (update_env_file_lines env t Hlines Ha Hr) as Hread.
  set (lines := lines_of env) in *.
  unfold read_env. rewrite Hread.
  destruct (read_back_tokens t lines Ha Hr) as [Hacc_back Href_back].
  split; [|split; [|split; [|split; [|split; [|split; [|split; [|split]]]]]]].
  - intros i line Hi Hacc Href.
    rewrite updated_lines_eq, lookup_app_l.
    + rewrite list_lookup_fmap, Hi. simpl. f_equal.
      apply replaced_other. unfold is_token_line.
      apply orb_false_iff. split; apply not_true_is_false.
      * by intros ?%is_access_key.
      * by intros ?%is_refresh_key.
    + rewrite length_fmap. by eapply lookup_lt_Some.
  - rewrite updated_lines_eq, !filter_app, filter_replaced.
    rewrite <- (app_nil_r (filter _ lines)) at 2. f_equal.
    destruct (existsb is_access lines), (existsb is_refresh lines);
      rewrite ?filter_cons, ?is_token_access_line, ?is_token_refresh_line;
      by repeat case_decide.
  - apply no_return_writelines, updated_lines_no_return; try done.
    apply lines_of_no_return.
  - split; [apply access_line_written|apply only_access_line].
  - split; [apply refresh_line_written|apply only_refresh_line].
  - done.
  - done.
  - intros Hparse. apply Forall_forall.
    intros line [(l & Hl & ->)|[->| ->]]%elem_of_updated_lines.
    + rewrite Forall_forall in Hparse. specialize (Hparse l Hl).
      unfold replaced.
      destruct (is_access l); [by rewrite parse_access_line|].
      destruct (is_refresh l); [by rewrite parse_refresh_line|done].
    + by rewrite parse_access_line.
    + by rewrite parse_refresh_line.
  - intros Hnodup. rewrite (updated_lines_keys t lines Ha Hr).
    pose proof (existsb_is_access lines) as Hacc.
    pose proof (existsb_is_refresh lines) as Href.
    destruct (existsb is_access lines), (existsb is_refresh lines);
      rewrite ?app_nil_r; try done.
    + apply NoDup_app. split; [done|]. split; [|apply NoDup_singleton].
      intros k Hk ->%list_elem_of_singleton. by apply Href.
    + apply NoDup_app. split; [done|]. split; [|apply NoDup_singleton].
      intros k Hk ->%list_elem_of_singleton. by apply Hacc.
    + apply NoDup_app. split; [done|]. split.
      * intros k Hk [->| ->%list_elem_of_singleton]%elem_of_cons.
        -- by apply Hacc.
        -- by apply Href.
      * apply (bool_decide_unpack _). vm_compute. exact I.
Qed.

Lemma credentials_round_trip_witness :
  let crlf := String carriage_return nl in
  let text :=
    "CLIENT_ID=42" +:+ crlf +:+ "ACCESS_TOKEN=old" +:+ crlf
    +:+ "# note" +:+ nl in
  let text' :=
    "CLIENT_ID=42" +:+ nl +:+ "ACCESS_TOKEN=a1" +:+ nl +:+ "# note" +:+ nl
    +:+ "REFRESH_TOKEN=r1" +:+ nl in
  update_env_file (Some text) Samples.tokens = Some text' ∧
  readlines text !! 0%nat = Some ("CLIENT_ID=42" +:+ nl) ∧
  readlines text' !! 0%nat = Some ("CLIENT_ID=42" +:+ nl) ∧
  readlines text' !! 2%nat = Some ("# note" +:+ nl) ∧
  no_return text' = true ∧
  read_env text' !! "ACCESS_TOKEN" = Some "a1" ∧
  read_env text' !! "REFRESH_TOKEN" = Some "r1" ∧
  NoDup (omap line_key (readlines text')).
Proof.
  intros crlf text text'.
  assert (update_env_file (Some text) Samples.tokens = Some text') as Hupdate
    by (vm_compute; reflexivity).
  destruct (credentials_round_trip (Some text) Samples.tokens text')
    as (Hkeep & _ & Hfeeds & _ & _ & Hacc & Href & _ & Hnodup).
  - repeat constructor.
  - reflexivity.
  - reflexivity.
  - exact Hupdate.
  - split; [exact Hupdate|]. split; [reflexivity|].
    split; [|split; [|split; [|split; [|split]]]].
    + apply Hkeep; [reflexivity|discriminate|discriminate].
    + apply Hkeep; [reflexivity|discriminate|discriminate].
    + exact Hfeeds.
    + exact Hacc.
    + exact Href.
    + apply Hnodup. apply (bool_decide_unpack _). vm_compute. exact I.
Defined.

(** C2 as stated fails: a key that the file holds twice is still there
    twice after the update; both [ACCESS_TOKEN] lines are rewritten in
    place. *)
Lemma credentials_round_trip_counterexample :
  let text := "ACCESS_TOKEN=old1" +:+ nl +:+ "ACCESS_TOKEN=old2" +:+ nl in
  let text' :=
    "ACCESS_TOKEN=a1" +:+ nl +:+ "ACCESS_TOKEN=a1" +:+ nl
    +:+ "REFRESH_TOKEN=r1" +:+ nl in
  update_env_file (Some text) Samples.tokens = Some text' ∧
  omap line_key (readlines text')
    = ["ACCESS_TOKEN"; "ACCESS_TOKEN"; "REFRESH_TOKEN"] ∧
  ¬ NoDup (omap line_key (readlines text')).
Proof.
  intros text text'.
  assert (omap line_key (readlines text')
          = ["ACCESS_TOKEN"; "ACCESS_TOKEN"; "REFRESH_TOKEN"]) as Hkeys
    by (vm_compute; reflexivity).
  split; [vm_compute; reflexivity|]. split; [exact Hkeys|].
  rewrite Hkeys. intros [Hdup _]%NoDup_cons. apply Hdup. by left.
Qed.

(** Outside the theorem: a file whose last line has no newline.  The
    token lines are appended to the text as it is, so the first of them
    continues the last line of the file: the value of [CLIENT_SECRET]
    changes and [ACCESS_TOKEN] cannot be read back. *)
Lemma missing_final_newline :
  let text := "CLIENT_ID=42" +:+ nl +:+ "CLIENT_SECRET=s3cret" in
  let text' :=
    "CLIENT_ID=42" +:+ nl +:+ "CLIENT_SECRET=s3cretACCESS_TOKEN=a1" +:+ nl
    +:+ "REFRESH_TOKEN=r1" +:+ nl in
  update_env_file (Some text) Samples.tokens = Some text' ∧
  read_env text !! "CLIENT_SECRET" = Some "s3cret" ∧
  read_env text' !! "CLIENT_SECRET" = Some "s3cretACCESS_TOKEN=a1" ∧
  read_env text' !! "ACCESS_TOKEN" = None ∧
  read_env text' !! "REFRESH_TOKEN" = Some "r1".
Proof. intros text text'. repeat split; vm_compute; reflexivity. Qed.

(** * Further properties *)

(** ** [update_env_file] on any text *)

Lemma replaced_all_other t (lines : list string) :
  existsb is_token_line lines = false → replaced t <$> lines = lines.
Proof.
  induction lines as [|line lines IH]; [done|].
  intros Hnone. simpl in Hnone.
  apply orb_false_iff in Hnone as [Hline Hrest].
  by rewrite fmap_cons, (replaced_other t line Hline), (IH Hrest).
Qed.

Lemma existsb_token_split (lines : list string) :
  existsb is_token_line lines = false →
  existsb is_access lines = false ∧ existsb is_refresh lines = false.
Proof.
  induction lines as [|line lines IH]; [done|].
  intros Hnone. simpl in Hnone.
  apply orb_false_iff in Hnone as [Hline Hrest].
  unfold is_token_line in Hline.
  apply orb_false_iff in Hline as [Hacc Href].
  simpl. rewrite Hacc, Href. by apply IH.
Qed.

(** X1. On a file without any token line the update is a plain append to
    the text as it is read, that is with its line endings translated to
    line feeds: the two token lines follow it directly, also when it does
    not end with a line ending. *)
Theorem update_env_file_appends text t :
  existsb is_token_line (readlines text) = false →
  update_env_file (Some text) t
    = Some (universal_newlines text +:+ access_line t +:+ refresh_line t).
Proof.
  intros Hnone. unfold update_env_file. f_equal.
  destruct (existsb_token_split _ Hnone) as [Hacc Href].
  rewrite updated_lines_eq, Hacc, Href, (replaced_all_other t _ Hnone).
  rewrite writelines_app, writelines_readlines. f_equal.
  change (writelines ([access_line t] ++ [refresh_line t]))
    with (access_line t +:+ refresh_line t +:+ "").
  by rewrite str_app_empty_r.
Qed.

Lemma update_env_file_appends_witness :
  let crlf := String carriage_return nl in
  update_env_file (Some ("CLIENT_ID=42" +:+ crlf +:+ "CLIENT_SECRET=s3cret"))
    Samples.tokens
  = Some (("CLIENT_ID=42" +:+ nl +:+ "CLIENT_SECRET=s3cret")
          +:+ access_line Samples.tokens +:+ refresh_line Samples.tokens).
Proof.
  intros crlf.
  apply (update_env_file_appends
           ("CLIENT_ID=42" +:+ crlf +:+ "CLIENT_SECRET=s3cret")
           Samples.tokens).
  vm_compute. reflexivity.
Defined.

Lemma lines_wf_cons line line' lines :
  lines_wf (line :: line' :: lines)
    = complete line && lines_wf (line' :: lines).
Proof. reflexivity. Qed.

Lemma replaced_wf t (lines : list string) :
  no_newline (access_token t) = true → no_newline (refresh_token t) = true →
  lines_wf lines = true → lines_wf (replaced t <$> lines) = true.
Proof.
  intros Ha Hr.
  assert (∀ line, complete line = true → complete (replaced t line) = true)
    as Hcomplete by (intros; by apply replaced_complete).
  assert (∀ line, partial line = true →
            complete (replaced t line) || partial (replaced t line) = true)
    as Hpartial.
  { intros line Hline. unfold replaced.
    destruct (is_access line); [by rewrite complete_access_line|].
    destruct (is_refresh line); [by rewrite complete_refresh_line|].
    by rewrite Hline, orb_true_r. }
  induction lines as [|line [|line' lines] IH]; [done|..].
  - cbn [lines_wf fmap list_fmap]. intros [Hline|Hline]%orb_true_iff.
    + by rewrite (Hcomplete _ Hline).
    + by apply Hpartial.
  - intros Hwf. rewrite lines_wf_cons in Hwf.
    apply andb_true_iff in Hwf as [Hline Hrest].
    specialize (IH Hrest). rewrite fmap_cons in IH. rewrite !fmap_cons.
    by rewrite lines_wf_cons, (Hcomplete _ Hline), IH.
Qed.

Lemma replaced_all_no_return t (lines : list string) :
  no_newline (access_token t) = true → no_newline (refresh_token t) = true →
  Forall (λ line, no_return line = true) lines →
  Forall (λ line, no_return line = true) (replaced t <$> lines).
Proof.
  intros Ha Hr Hlines. apply Forall_fmap.
  eapply Forall_impl; [done|]. intros line Hline.
  by apply replaced_no_return.
Qed.

(** X2. When both token keys are already in the file, the update is in
    place for every text, whatever its line endings and with or without a
    final one: the lines read from the new file are the lines read from
    the old one with the token lines replaced, nothing is appended, and
    the new text is these lines one after the other. *)
Theorem update_env_file_in_place text t text' :
  existsb is_access (readlines text) = true →
  existsb is_refresh (readlines text) = true →
  no_newline (access_token t) = true →
  no_newline (refresh_token t) = true →
  update_env_file (Some text) t = Some text' →
  readlines text' = replaced t <$> readlines text ∧
  length (readlines text') = length (readlines text) ∧
  text' = writelines (replaced t <$> readlines text).
Proof.
  intros Hacc Href Ha Hr [= <-].
  assert (updated_lines t (readlines text) = replaced t <$> readlines text)
    as Hlines.
  { by rewrite updated_lines_eq, Hacc, Href, !app_nil_r. }
  assert (readlines (writelines (updated_lines t (readlines text)))
          = replaced t <$> readlines text) as Hread.
  { rewrite Hlines. apply readlines_writelines_wf.
    - apply replaced_wf; try done. apply readlines_wf.
    - apply replaced_all_no_return; try done. apply readlines_no_return. }
  split; [done|]. split; [by rewrite Hread, length_fmap|].
  by rewrite Hlines.
Qed.

Lemma update_env_file_in_place_witness :
  let crlf := String carriage_return nl in
  let text :=
    "REFRESH_TOKEN=r0" +:+ crlf +:+ "ACCESS_TOKEN=a0" +:+ crlf
    +:+ "CLIENT_ID=42" in
  let text' :=
    "REFRESH_TOKEN=r1" +:+ nl +:+ "ACCESS_TOKEN=a1" +:+ nl
    +:+ "CLIENT_ID=42" in
  update_env_file (Some text) Samples.tokens = Some text' ∧
  length (readlines text') = 3%nat ∧
  readlines text' !! 2%nat = Some "CLIENT_ID=42".
Proof.
  intros crlf text text'.
  assert (update_env_file (Some text) Samples.tokens = Some text') as Hupdate
    by (vm_compute; reflexivity).
  destruct (update_env_file_in_place text Samples.tokens text')
    as (Hread & Hlen & _);
    [reflexivity|reflexivity|reflexivity|reflexivity|exact Hupdate|].
  split; [exact Hupdate|]. split; [exact Hlen|].
  rewrite Hread. reflexivity.
Defined.

(** ** One update after another *)

Lemma replaced_replaced t1 t2 line :
  replaced t2 (replaced t1 line) = replaced t2 line.
Proof.
  unfold replaced at 2 3.
  destruct (is_access line) eqn:Hacc.
  - unfold replaced. by rewrite is_access_access_line.
  - destruct (is_refresh line) eqn:Href.
    + unfold replaced.
      by rewrite (refresh_not_access _ (is_refresh_refresh_line t1)),
        is_refresh_refresh_line.
    + unfold replaced. by rewrite Hacc, Href.
Qed.

Lemma existsb_access_written t lines :
  existsb is_access (updated_lines t lines) = true.
Proof.
  apply existsb_exists. exists (access_line t).
  split; [apply list_elem_of_In, access_line_written|].
  apply is_access_access_line.
Qed.

Lemma existsb_refresh_written t lines :
  existsb is_refresh (updated_lines t lines) = true.
Proof.
  apply existsb_exists. exists (refresh_line t).
  split; [apply list_elem_of_In, refresh_line_written|].
  apply is_refresh_refresh_line.
Qed.

(** On lines, a second update forgets the first. *)
Lemma updated_lines_twice t1 t2 lines :
  updated_lines t2 (updated_lines t1 lines) = updated_lines t2 lines.
Proof.
  rewrite (updated_lines_eq t2 (updated_lines t1 lines)).
  rewrite existsb_access_written, existsb_refresh_written, !app_nil_r.
  rewrite (updated_lines_eq t1), (updated_lines_eq t2), !fmap_app.
  f_equal; [|f_equal].
  - rewrite <- list_fmap_compose. apply list_fmap_ext.
    intros i line _. apply replaced_replaced.
  - destruct (existsb is_access lines); [done|].
    rewrite list_fmap_singleton. unfold replaced.
    by rewrite is_access_access_line.
  - destruct (existsb is_refresh lines); [done|].
    rewrite list_fmap_singleton. unfold replaced.
    by rewrite (refresh_not_access _ (is_refresh_refresh_line t1)),
      is_refresh_refresh_line.
Qed.

(** X3. The last update wins: on a file whose lines all end with a
    newline, updating with one token pair and then with another leaves
    the text that the second update alone leaves; in particular the
    update is idempotent. *)
Theorem update_env_file_overwrites env t1 t2 text1 :
  Forall (λ line, complete line = true) (lines_of env) →
  no_newline (access_token t1) = true →
  no_newline (refresh_token t1) = true →
  update_env_file env t1 = Some text1 →
  update_env_file (Some text1) t2 = update_env_file env t2.
Proof.
  intros Hlines Ha Hr [= <-]. unfold update_env_file.
  fold (lines_of env).
  by rewrite (update_env_file_lines env t1 Hlines Ha Hr), updated_lines_twice.
Qed.

Lemma update_env_file_overwrites_witness :
  let text := "CLIENT_ID=42" +:+ nl +:+ "ACCESS_TOKEN=old" +:+ nl in
  let later := {| access_token := "a2"; refresh_token := "r2" |} in
  ∃ text1,
    update_env_file (Some text) Samples.tokens = Some text1 ∧
    update_env_file (Some text1) later = update_env_file (Some text) later ∧
    update_env_file (Some text1) Samples.tokens = Some text1.
Proof.
  intros text later.
  exists ("CLIENT_ID=42" +:+ nl +:+ "ACCESS_TOKEN=a1" +:+ nl
          +:+ "REFRESH_TOKEN=r1" +:+ nl).
  assert (update_env_file (Some text) Samples.tokens
          = Some ("CLIENT_ID=42" +:+ nl +:+ "ACCESS_TOKEN=a1" +:+ nl
                  +:+ "REFRESH_TOKEN=r1" +:+ nl)) as Hfirst
    by (vm_compute; reflexivity).
  split; [exact Hfirst|]. split.
  - apply (update_env_file_overwrites (Some text) Samples.tokens later);
      [repeat constructor|reflexivity|reflexivity|exact Hfirst].
  - rewrite <- Hfirst at 2.
    apply (update_env_file_overwrites (Some text) Samples.tokens
             Samples.tokens);
      [repeat constructor|reflexivity|reflexivity|exact Hfirst].
Defined.

(** ** [get_token] and [refresh_access_token] *)

(** X4. What [get_token] returns is what it has stored: when every line
    read from the credentials file ends with a line ending and the
    provider's tokens hold none, a [get_token] that returns a token leaves
    a credentials file that holds the line [ACCESS_TOKEN=] with the token
    returned and in which every line that starts with [ACCESS_TOKEN=] is
    that line, and the same for [REFRESH_TOKEN=] and the refresh token of
    the same response; the activities file is not touched. *)
Theorem get_token_persists cfg c fs fs' token :
  Forall (λ line, complete line = true) (lines_of (env_file fs)) →
  (∀ t, refresh_access_token c (CLIENT_ID cfg) (CLIENT_SECRET cfg)
          (REFRESH_TOKEN cfg) = Ok t →
        no_newline (access_token t) = true ∧
        no_newline (refresh_token t) = true) →
  get_token cfg c fs = (fs', Ok token) →
  ∃ t text,
    refresh_access_token c (CLIENT_ID cfg) (CLIENT_SECRET cfg)
      (REFRESH_TOKEN cfg) = Ok t ∧
    token = access_token t ∧
    env_file fs' = Some text ∧
    access_line t ∈ readlines text ∧
    (∀ line, line ∈ readlines text → is_access line = true →
             line = access_line t) ∧
    refresh_line t ∈ readlines text ∧
    (∀ line, line ∈ readlines text → is_refresh line = true →
             line = refresh_line t) ∧
    activities_file fs' = activities_file fs.
Proof.
  intros Hlines Htokens. unfold get_token.
  destruct (truthy (REFRESH_TOKEN cfg)); [|done].
  destruct (refresh_access_token c _ _ _) as [t|e] eqn:Hrefresh; [|done].
  intros [= <- <-]. destruct (Htokens t eq_refl) as [Ha Hr].
  exists t, (writelines (updated_lines t (lines_of (env_file fs)))).
  split; [done|]. split; [done|]. split; [done|].
  rewrite (update_env_file_lines _ t Hlines Ha Hr).
  split; [apply access_line_written|]. split; [apply only_access_line|].
  split; [apply refresh_line_written|]. split; [apply only_refresh_line|].
  done.
Qed.

Lemma get_token_persists_witness :
  let fs :=
    {| env_file := Some ("REFRESH_TOKEN=r0" +:+ nl);
       activities_file := NoFile |} in
  ∃ fs' text,
    get_token Samples.cfg (Samples.serving []) fs = (fs', Ok "a1") ∧
    env_file fs' = Some text ∧
    ("ACCESS_TOKEN=a1" +:+ nl) ∈ readlines text.
Proof.
  intros fs.
  destruct (get_token_persists Samples.cfg (Samples.serving []) fs
              {| env_file := update_env_file (env_file fs) Samples.tokens;
                 activities_file := NoFile |} "a1")
    as (t & text & Ht & _ & Henv & Hacc & _).
  - repeat constructor.
  - intros t [= <-]. split; reflexivity.
  - reflexivity.
  - injection Ht as <-.
    eexists _, text. split; [reflexivity|]. split; [exact Henv|exact Hacc].
Defined.

(** X5. The two refresh functions when the provider rejects the refresh
    of a refresh token that is set: neither writes a file; [get_token]
    raises [ValueError] whatever the provider raised, and
    [refresh_access_token] lets the provider's exception through. *)
Theorem refresh_functions_compared cfg c fs e :
  truthy (REFRESH_TOKEN cfg) = true →
  refresh_access_token c (CLIENT_ID cfg) (CLIENT_SECRET cfg)
    (REFRESH_TOKEN cfg) = Raise e →
  get_token cfg c fs = (fs, Raise ValueError) ∧
  Checker.refresh_access_token cfg c fs = (fs, Raise e).
Proof.
  intros Hrefresh Hraise. unfold get_token, Checker.refresh_access_token.
  by rewrite Hrefresh, Hraise.
Qed.

Lemma refresh_functions_compared_witness :
  let rejecting :=
    {| refresh_access_token := λ _ _ _, Raise OtherError;
       get_activities := λ _ _, Ok [] |} in
  get_token Samples.cfg rejecting empty_files
    = (empty_files, Raise ValueError) ∧
  Checker.refresh_access_token Samples.cfg rejecting empty_files
    = (empty_files, Raise OtherError).
Proof.
  intros rejecting.
  exact (refresh_functions_compared Samples.cfg rejecting empty_files
           OtherError eq_refl eq_refl).
Defined.

(** ** More on the sync run *)

(** X6. Missing configuration: without a client id, a client secret or a
    refresh token the run ends as a configuration error and leaves both
    files as they were, whatever the provider would have answered. *)
Theorem missing_configuration cfg args c fs :
  truthy (CLIENT_ID cfg) = false ∨ truthy (CLIENT_SECRET cfg) = false ∨
  truthy (REFRESH_TOKEN cfg) = false →
  main cfg args c fs = (fs, ConfigurationError).
Proof.
  unfold main, get_token.
  destruct (truthy (CLIENT_ID cfg)); simpl; [|done].
  destruct (truthy (CLIENT_SECRET cfg)); simpl; [|done].
  intros [?|[?|Hrefresh]]; [done..|]. by rewrite Hrefresh.
Qed.

Lemma missing_configuration_witness :
  let cfg :=
    {| CLIENT_ID := Some "42"; CLIENT_SECRET := Some "";
       ACCESS_TOKEN := None; REFRESH_TOKEN := Some "r0" |} in
  main cfg Samples.full (Samples.serving [Samples.bare 1 "2024-01-01"])
    empty_files
  = (empty_files, ConfigurationError).
Proof.
  intros cfg.
  apply (missing_configuration cfg Samples.full
           (Samples.serving [Samples.bare 1 "2024-01-01"]) empty_files).
  right. left. reflexivity.
Defined.

(** X7. The run changes the credentials file through [get_token] only:
    once the client id and the client secret are set, the credentials
    file after the run is the one [get_token] left, also when the fetch
    then fails, when nothing is new, when the merge raises and when the
    activities are saved. *)
Theorem credentials_left_by_get_token cfg args c fs :
  truthy (CLIENT_ID cfg) = true → truthy (CLIENT_SECRET cfg) = true →
  env_file (main cfg args c fs).1 = env_file (get_token cfg c fs).1.
Proof.
  intros Hid Hsecret. unfold main. rewrite Hid, Hsecret. simpl.
  destruct (get_token cfg c fs) as [fs1 [token|e]]; [|done].
  destruct (get_activities c _ _) as [fetched|e]; [|done].
  by destruct (process_activities _ _ _) as [[l|]|e].
Qed.

Lemma credentials_left_by_get_token_witness :
  let unsortable :=
    {| env_file := None;
       activities_file := JsonArray [<["start_date_local" := JInt 5]> ∅] |} in
  let run :=
    main Samples.cfg Samples.incremental
      (Samples.serving [Samples.bare 2 "2024-01-02"]) unsortable in
  run.2 = ErrorOccurred TypeError ∧
  env_file run.1
    = Some (access_line Samples.tokens +:+ refresh_line Samples.tokens).
Proof.
  intros unsortable run. split; [vm_compute; reflexivity|].
  unfold run.
  rewrite (credentials_left_by_get_token Samples.cfg Samples.incremental
             (Samples.serving [Samples.bare 2 "2024-01-02"]) unsortable);
    reflexivity.
Defined.

Lemma normalized_elem a (d : record) fetched :
  a ∈ fetched → activity_to_dict a = Ok d → d ∈ normalized fetched.
Proof.
  intros Ha Hconv. apply list_elem_of_omap. exists a. by rewrite Hconv.
Qed.

(** The loop is a filter of the normalized records. *)
Lemma collect_new_filter ids fetched :
  collect_new ids fetched =
    filter (λ d, record_known ids d = false) (normalized fetched).
Proof.
  induction fetched as [|a rest IH]; [done|]. simpl.
  unfold normalized. simpl. fold (normalized rest).
  destruct (activity_to_dict a) as [d|e] eqn:Hconv; simpl; [|done].
  destruct (activity_to_dict_id a d Hconv) as (n & s & _ & _ & Hid & _).
  unfold getitem. rewrite Hid. simpl. rewrite filter_cons.
  assert (record_known ids d = py_in (JInt n) ids) as Hknown.
  { unfold record_known. by rewrite Hid. }
  destruct (py_in (JInt n) ids); case_decide; try congruence;
    by rewrite IH.
Qed.

(** X8. What an incremental run saves: the stored records, every one of
    them as it was, and the normalized fetched records whose id is not
    among the stored ids; nothing else, and together in sorted order.  A
    fetched activity whose id is stored changes nothing, so a change made
    to it at the provider is not taken over. *)
Theorem incremental_merge cfg args c fs :
  full_refresh args = false →
  (main cfg args c fs).2 = Updated →
  ∃ stored fetched l,
    load_existing_activities (activities_file fs) = Ok stored ∧
    fetches cfg args c fetched ∧
    activities_file (main cfg args c fs).1 = JsonArray l ∧
    l ≡ₚ stored
         ++ filter (λ d, record_known (existing_ids stored) d = false)
              (normalized fetched).
Proof.
  intros Hmode (fetched & l & Hfetch & Hmerge & Hfile)%main_updated.
  rewrite Hmode in Hmerge.
  apply process_loaded in Hmerge as (stored & Hload & Hmerge).
  simpl in Hmerge.
  exists stored, fetched, l. split; [done|]. split; [done|]. split; [done|].
  rewrite <- collect_new_filter.
  destruct (collect_new (existing_ids stored) fetched) as [|d new] eqn:Hnew;
    [done|].
  apply fmap_Ok in Hmerge as (l' & Hsort & [= ->]).
  by apply py_sort_perm in Hsort.
Qed.

Lemma incremental_merge_witness :
  let store :=
    {| env_file := None;
       activities_file :=
         JsonArray [Samples.stored 3 "2024-01-03";
                    Samples.stored 1 "2024-01-01"] |} in
  let fetched := [Samples.bare 3 "2024-03-03"; Samples.bare 2 "2024-01-02"] in
  let after :=
    (main Samples.cfg Samples.incremental (Samples.serving fetched)
       store).1 in
  (∃ l, activities_file after = JsonArray l ∧
        Samples.stored 3 "2024-01-03" ∈ l) ∧
  (λ l : list record, sort_key <$> l)
    <$> load_existing_activities (activities_file after) =
    Ok [JStr "2024-01-01"; JStr "2024-01-02"; JStr "2024-01-03"].
Proof.
  intros store fetched after. split; [|vm_compute; reflexivity].
  destruct (incremental_merge Samples.cfg Samples.incremental
              (Samples.serving fetched) store)
    as (stored & fetched' & l & Hload & _ & Hfile & Hperm).
  - reflexivity.
  - vm_compute. reflexivity.
  - change (Ok [Samples.stored 3 "2024-01-03"; Samples.stored 1 "2024-01-01"]
            = Ok stored) in Hload.
    injection Hload as <-.
    exists l. split; [exact Hfile|]. rewrite Hperm.
    apply elem_of_app. left. left.
Defined.

(** X10. A fetch from which no activity normalizes (an empty fetch, for
    one): a full refresh saves the empty list over whatever was stored,
    while an incremental run leaves the activities file as it was,
    creating none if there was none, and reports nothing new when the
    stored records load, or ends in the handler of the exception the
    loader raises. *)
Theorem nothing_fetched cfg args c fs fetched :
  fetches cfg args c fetched →
  normalized fetched = [] →
  if full_refresh args then
    activities_file (main cfg args c fs).1 = JsonArray [] ∧
    (main cfg args c fs).2 = Updated
  else
    activities_file (main cfg args c fs).1 = activities_file fs ∧
    (main cfg args c fs).2 =
      match load_existing_activities (activities_file fs) with
      | Ok _ => NoNewActivities
      | Raise e => handler e
      end.
Proof.
  intros Hfetch Hnone.
  destruct (main_fetches cfg args c fs fetched Hfetch) as [-> ->].
  destruct (full_refresh args).
  - by rewrite process_full, Hnone.
  - rewrite process_incremental.
    destruct (load_existing_activities (activities_file fs)) as [stored|e];
      simpl; [|done].
    by rewrite collect_new_filter, Hnone.
Qed.

Lemma nothing_fetched_witness :
  let store :=
    {| env_file := None;
       activities_file := JsonArray [Samples.stored 1 "2024-01-01"] |} in
  let undecodable :=
    {| env_file := None; activities_file := Unreadable ValueError |} in
  activities_file
    (main Samples.cfg Samples.full (Samples.serving []) store).1
    = JsonArray [] ∧
  main Samples.cfg Samples.incremental (Samples.serving []) empty_files
    = ({| env_file := update_env_file None Samples.tokens;
          activities_file := NoFile |}, NoNewActivities) ∧
  (main Samples.cfg Samples.incremental (Samples.serving []) undecodable).2
    = ConfigurationError.
Proof.
  intros store undecodable. split; [|split].
  - destruct (nothing_fetched Samples.cfg Samples.full (Samples.serving [])
                store []) as [Hfile _]; [|reflexivity|exact Hfile].
    repeat split. by exists Samples.tokens.
  - reflexivity.
  - destruct (nothing_fetched Samples.cfg Samples.incremental
                (Samples.serving []) undecodable [])
      as [_ Hout]; [|reflexivity|exact Hout].
    repeat split. by exists Samples.tokens.
Defined.

Lemma py_lt_raises a b e : py_lt a b = Raise e → e = TypeError.
Proof.
  unfold py_lt. destruct a, b; simpl;
    repeat case_match; congruence.
Qed.

Lemma py_insert_raises {A} (key : A → json) x l e :
  py_insert key x l = Raise e → e = TypeError.
Proof.
  induction l as [|y l IH]; simpl; [done|].
  destruct (py_lt (key y) (key x)) as [[]|e'] eqn:Hlt; simpl.
  - destruct (py_insert key x l); simpl; [done|].
    intros [= <-]. by apply IH.
  - done.
  - intros [= <-]. by eapply py_lt_raises.
Qed.

Lemma py_sort_raises {A} (key : A → json) l e :
  py_sort key l = Raise e → e = TypeError.
Proof.
  induction l as [|x l IH]; simpl; [done|].
  destruct (py_sort key l) as [s|e']; simpl.
  - apply py_insert_raises.
  - intros [= <-]. by apply IH.
Qed.

(** X11. A stored [start_date_local] that is not a string blocks every
    incremental run that has something new: the sort raises [TypeError],
    the run ends with the general error message and the activities file
    stays as it was, without the new activities. *)
Theorem unsortable_store cfg args c fs store fetched (r : record) :
  full_refresh args = false →
  fetches cfg args c fetched →
  activities_file fs = JsonArray store →
  r ∈ store → is_str (sort_key r) = false →
  collect_new (existing_ids store) fetched ≠ [] →
  (main cfg args c fs).2 = ErrorOccurred TypeError ∧
  activities_file (main cfg args c fs).1 = activities_file fs.
Proof.
  intros Hmode Hfetch Hfile Hr Hkey Hnew.
  destruct (main_fetches cfg args c fs fetched Hfetch) as [-> ->].
  rewrite Hmode, Hfile, process_incremental. simpl.
  pose proof (collect_new_keys (existing_ids store) fetched) as Hkeys.
  destruct (collect_new (existing_ids store) fetched) as [|d new] eqn:Hc;
    [done|]. rewrite <- Hc in *.
  destruct (py_sort sort_key (store ++ collect_new (existing_ids store) fetched))
    as [l|e] eqn:Hsort; simpl.
  - exfalso.
    assert (is_str (sort_key r) = is_str (sort_key d)) as Hsame.
    { apply (py_sort_uniform sort_key _ _ r d Hsort).
      - apply elem_of_app. by left.
      - apply elem_of_app. right. rewrite Hc. by left. }
    rewrite Hc in Hkeys. apply Forall_cons in Hkeys as [Hd _]. congruence.
  - by rewrite (py_sort_raises _ _ _ Hsort).
Qed.

Lemma unsortable_store_witness :
  let dated : record :=
    <["start_date_local" := JInt 20240101]> (<["id" := JInt 1]> ∅) in
  let store :=
    {| env_file := None; activities_file := JsonArray [dated] |} in
  let run :=
    main Samples.cfg Samples.incremental
      (Samples.serving [Samples.bare 2 "2024-01-02"]) store in
  run.2 = ErrorOccurred TypeError ∧
  activities_file run.1 = activities_file store.
Proof.
  intros dated store run.
  apply (unsortable_store Samples.cfg Samples.incremental
           (Samples.serving [Samples.bare 2 "2024-01-02"]) store [dated]
           [Samples.bare 2 "2024-01-02"] dated).
  - reflexivity.
  - repeat split. by exists Samples.tokens.
  - reflexivity.
  - by left.
  - vm_compute. reflexivity.
  - intros Hnil.
    assert (length (collect_new (existing_ids [dated])
                      [Samples.bare 2 "2024-01-02"]) = 1%nat) as Hlen
      by (vm_compute; reflexivity).
    rewrite Hnil in Hlen. discriminate Hlen.
Defined.

(** X12. An incremental run after a full refresh with the same fetch
    saves nothing: every fetched id is already in the file the full
    refresh wrote. *)
Theorem incremental_after_full_refresh cfg cfg' args args' c c' fs fetched :
  full_refresh args = true →
  full_refresh args' = false →
  fetches cfg args c fetched →
  (∀ fetched', fetches cfg' args' c' fetched' → fetched' = fetched) →
  let after_full := (main cfg args c fs).1 in
  let second := main cfg' args' c' after_full in
  second.2 ≠ Updated ∧
  activities_file second.1 = activities_file after_full.
Proof.
  intros Hfull Hincr Hfetch Hsame after_full second.
  assert (second.2 ≠ Updated) as Hsecond; [|split; [done|]].
  - intros (fetched' & l' & Hfetch' & Hmerge' & _)%main_updated.
    rewrite (Hsame _ Hfetch') in Hmerge'.
    destruct (main_fetches cfg args c fs fetched Hfetch) as [Hfile _].
    fold after_full in Hfile.
    rewrite Hfull, process_full in Hfile.
    destruct (py_sort sort_key (normalized fetched)) as [l|e] eqn:Hsort;
      simpl in Hfile.
    + rewrite Hfile, Hincr, process_incremental in Hmerge'. simpl in Hmerge'.
      rewrite collect_new_nil in Hmerge'; [done|].
      intros a d n Ha Hconv Hid. apply py_in_elem.
      apply (existing_ids_elem d); [|done].
      rewrite (py_sort_perm _ _ _ Hsort). by eapply normalized_elem.
    + destruct (py_sort_strings sort_key (normalized fetched))
        as (l & Hsort' & _); [|congruence].
      rewrite <- collect_new_all. apply collect_new_keys.
  - by apply main_not_updated.
Qed.

Lemma incremental_after_full_refresh_witness :
  let fetched := [Samples.bare 10 "2024-01-02"; Samples.bare 11 "2024-01-01"] in
  let after_full :=
    (main Samples.cfg Samples.full (Samples.serving fetched) empty_files).1 in
  (main Samples.cfg Samples.incremental (Samples.serving fetched)
     after_full).2 ≠ Updated.
Proof.
  intros fetched after_full.
  destruct (incremental_after_full_refresh Samples.cfg Samples.cfg
              Samples.full Samples.incremental (Samples.serving fetched)
              (Samples.serving fetched) empty_files fetched)
    as [Hout _].
  - reflexivity.
  - reflexivity.
  - repeat split. by exists Samples.tokens.
  - intros fetched' (_ & _ & _ & t & _ & Hget). simpl in Hget. congruence.
  - exact Hout.
Defined.

(** ** More on [activity_to_dict] *)

Lemma set_properties_dom conv dflt a properties (result result' : record) :
  set_properties conv dflt a properties result = Ok result' →
  dom result' = dom result ∪ list_to_set properties.*1.
Proof.
  revert result.
  induction properties as [|[key attr] rest IH]; intros result;
    cbn [set_properties].
  - intros [= <-]. by rewrite fmap_nil, list_to_set_nil, (right_id_L ∅ (∪)).
  - intros H. bind_inv H.
    rewrite (IH _ H), dom_insert_L, fmap_cons, list_to_set_cons.
    by rewrite (comm_L (∪) {[key]} (dom result)), !(assoc_L (∪)).
Qed.

Lemma base_dict_dom a (d : record) :
  base_dict a = Ok d → dom d = list_to_set core_keys.
Proof.
  unfold base_dict. intros H. bind_inv H. injection H as <-.
  rewrite !dom_insert_L, dom_empty_L. apply set_eq. intros k.
  unfold core_keys. rewrite elem_of_list_to_set, !elem_of_union,
    !elem_of_singleton, !elem_of_cons, elem_of_nil, elem_of_empty.
  tauto.
Qed.

Lemma minimal_dict_dom a (d : record) :
  minimal_dict a = Ok d → dom d = list_to_set core_keys.
Proof.
  unfold minimal_dict. intros H. bind_inv H. injection H as <-.
  rewrite !dom_insert_L, dom_empty_L. apply set_eq. intros k.
  unfold core_keys. rewrite elem_of_list_to_set, !elem_of_union,
    !elem_of_singleton, !elem_of_cons, elem_of_nil, elem_of_empty.
  tauto.
Qed.

(** X14. A normalized record has one of two sets of keys: the seven keys
    of the required core together with all fifteen optional keys when the
    [try] block completes, and the seven core keys alone when it does
    not. *)
Theorem record_keys a (d : record) :
  activity_to_dict a = Ok d →
  dom d =
    if is_ok (full_dict a) then
      list_to_set core_keys ∪ list_to_set optional_keys
    else list_to_set core_keys.
Proof.
  unfold activity_to_dict.
  destruct (full_dict a) as [d'|e] eqn:Hfull; cbn [is_ok];
    [|apply minimal_dict_dom].
  intros [= <-]. unfold full_dict in Hfull. bind_inv Hfull.
  rewrite (set_properties_dom _ _ _ _ _ _ Hfull),
    (set_properties_dom _ _ _ _ _ _ Hstep2),
    (set_properties_dom _ _ _ _ _ _ Hstep1),
    (set_properties_dom _ _ _ _ _ _ Hstep0),
    (base_dict_dom _ _ Hstep).
  unfold optional_keys. rewrite !fmap_app, !list_to_set_app_L.
  by rewrite !(assoc_L (∪)).
Qed.

Lemma record_keys_witness :
  ∃ d : record,
    activity_to_dict (Samples.bare 10 "2024-01-02") = Ok d ∧
    dom d = list_to_set core_keys ∪ list_to_set optional_keys ∧
    size (dom d) = 22%nat.
Proof.
  destruct (activity_to_dict_ok (Samples.bare 10 "2024-01-02"))
    as [d Hd]; [reflexivity|].
  exists d. split; [exact Hd|].
  pose proof (record_keys _ d Hd) as Hdom.
  assert (is_ok (full_dict (Samples.bare 10 "2024-01-02")) = true) as Hfull
    by (vm_compute; reflexivity).
  rewrite Hfull in Hdom. split; [exact Hdom|].
  rewrite Hdom. vm_compute. reflexivity.
Defined.

Lemma optional_value_kind conv dflt a attr j :
  optional_value conv dflt a attr = Ok j →
  j = dflt ∨ ∃ v, conv v = Ok j.
Proof.
  unfold optional_value, hasattr, getattr.
  destruct (act_attrs a !! attr) as [[|o]|]; simpl;
    try (intros [= <-]; by left).
  destruct (conv (PyObject o)) as [j'|e] eqn:Hconv.
  - intros [= <-]. right. eauto.
  - destruct (field_error e); [|done]. intros [= <-]. by left.
Qed.

Lemma set_properties_Forall (P : string → json → Prop) conv dflt a
    properties (result result' : record) :
  (∀ key attr j, (key, attr) ∈ properties →
     optional_value conv dflt a attr = Ok j → P key j) →
  set_properties conv dflt a properties result = Ok result' →
  map_Forall P result → map_Forall P result'.
Proof.
  revert result.
  induction properties as [|[key attr] rest IH]; intros result Hvalues;
    cbn [set_properties].
  - by intros [= <-].
  - intros H Hresult. bind_inv H. eapply IH; [|exact H|].
    + intros key' attr' j Hin. apply Hvalues. by right.
    + apply map_Forall_insert_2; [|done].
      apply (Hvalues key attr); [by left|done].
Qed.

Lemma base_dict_typed a (d : record) :
  base_dict a = Ok d → map_Forall (λ k v, field_ok k v = true) d.
Proof.
  unfold base_dict. intros H. bind_inv H. injection H as <-.
  repeat (apply map_Forall_insert_2; [reflexivity|]).
  apply map_Forall_empty.
Qed.

Lemma minimal_dict_typed a (d : record) :
  minimal_dict a = Ok d → map_Forall (λ k v, field_ok k v = true) d.
Proof.
  unfold minimal_dict. intros H. bind_inv H. injection H as <-.
  repeat (apply map_Forall_insert_2; [reflexivity|]).
  apply map_Forall_empty.
Qed.

(** Cases on the member of a closed list of properties. *)
Ltac which_property H :=
  repeat (apply elem_of_cons in H as [[= -> ->]|H]);
  [..|by apply elem_of_nil in H].

(** X15. Every field of a normalized record holds a value of the type of
    its key: integers for the id, the times and the counts, strings for
    name, start date and type, a float for the distance, a float or null
    for the other measures, a string or null for gear and device, a
    boolean for the flags. *)
Theorem record_typed a (d : record) :
  activity_to_dict a = Ok d →
  map_Forall (λ k v, field_ok k v = true) d.
Proof.
  unfold activity_to_dict.
  destruct (full_dict a) as [d'|e] eqn:Hfull; [|apply minimal_dict_typed].
  intros [= <-]. unfold full_dict in Hfull. bind_inv Hfull.
  eapply set_properties_Forall; [|exact Hfull|].
  { intros key attr j Hin [->|[v (b & _ & ->)%fmap_Ok]]%optional_value_kind;
      which_property Hin; reflexivity. }
  eapply set_properties_Forall; [|exact Hstep2|].
  { intros key attr j Hin [->|[v (b & _ & ->)%fmap_Ok]]%optional_value_kind;
      which_property Hin; reflexivity. }
  eapply set_properties_Forall; [|exact Hstep1|].
  { intros key attr j Hin [->|[v (b & _ & ->)%fmap_Ok]]%optional_value_kind;
      which_property Hin; reflexivity. }
  eapply set_properties_Forall; [|exact Hstep0|].
  { intros key attr j Hin [->|[v (b & _ & ->)%fmap_Ok]]%optional_value_kind;
      which_property Hin; reflexivity. }
  by eapply base_dict_typed.
Qed.

Lemma record_typed_witness :
  let a :=
    Samples.with_attr "kudos_count" (Samples.int_obj 3)
      (Samples.with_attr "average_speed" (Samples.text_obj "fast")
         (Samples.bare 10 "2024-01-02")) in
  ∃ d : record,
    activity_to_dict a = Ok d ∧
    map_Forall (λ k v, field_ok k v = true) d ∧
    d !! "kudos_count" = Some (JInt 3).
Proof.
  intros a.
  destruct (activity_to_dict_ok a) as [d Hd]; [reflexivity|].
  exists d. split; [exact Hd|]. split.
  - exact (record_typed a d Hd).
  - assert ((default ∅ (match activity_to_dict a with
                        | Ok r => Some r
                        | Raise _ => None
                        end) : record) !! "kudos_count" = Some (JInt 3))
      as Hkudos by (vm_compute; reflexivity).
    by rewrite Hd in Hkudos.
Defined.

(** X16. The fallback record forgets what did convert: as soon as one
    thing in the [try] block raises, the record has no optional key and
    its distance and times are zero, whatever the activity's distance and
    times are. *)
Theorem degraded_record a (d : record) :
  is_ok (full_dict a) = false →
  activity_to_dict a = Ok d →
  d !! "distance" = Some (JFloat float_zero) ∧
  d !! "moving_time" = Some (JInt 0) ∧
  d !! "elapsed_time" = Some (JInt 0) ∧
  ∀ k, k ∈ optional_keys → d !! k = None.
Proof.
  unfold activity_to_dict. destruct (full_dict a) as [d'|e]; [done|].
  intros _ Hmin.
  split; [|split; [|split]].
  - unfold minimal_dict in Hmin. bind_inv Hmin. injection Hmin as <-.
    by simplify_map_eq.
  - unfold minimal_dict in Hmin. bind_inv Hmin. injection Hmin as <-.
    by simplify_map_eq.
  - unfold minimal_dict in Hmin. bind_inv Hmin. injection Hmin as <-.
    by simplify_map_eq.
  - intros k Hk. apply (minimal_dict_keys a d k Hmin).
    intros Hcore. revert Hk.
    repeat (apply elem_of_cons in Hcore as [->|Hcore]);
      [closed_notin..|by apply elem_of_nil in Hcore].
Qed.

Lemma degraded_record_witness :
  let a :=
    Samples.with_attr "distance" (Samples.int_obj 5000)
      (Samples.with_attr "moving_time" (Samples.plain_obj "0:25:00")
         (Samples.bare 10 "2024-01-02")) in
  py_float (Samples.int_obj 5000) = Ok (S754_finite false 5497558138880000 (-40)) ∧
  ∃ d : record,
    activity_to_dict a = Ok d ∧
    d !! "distance" = Some (JFloat float_zero).
Proof.
  intros a. split; [vm_compute; reflexivity|].
  destruct (activity_to_dict_ok a) as [d Hd]; [reflexivity|].
  exists d. split; [exact Hd|].
  destruct (degraded_record a d) as (Hdistance & _);
    [vm_compute; reflexivity|exact Hd|exact Hdistance].
Defined.

Lemma core_number_falsy {A} (conv : pyval → pyresult A) (zero : A) a attr :
  act_attrs a !! attr = None ∨
  (∃ v, act_attrs a !! attr = Some v ∧ py_bool v = Ok false) →
  core_number conv zero a attr = Ok zero.
Proof.
  unfold core_number, hasattr, getattr.
  intros [->|(v & -> & Hfalse)]; simpl; [done|].
  by rewrite Hfalse.
Qed.

(** X17. A distance or a time that is absent, [None], zero or otherwise
    false is stored as zero ([0.0] for the distance, [0] for the times)
    and is not converted at all; unlike the optional measures, it never
    becomes null. *)
Theorem falsy_core_numbers a (d : record) attr zero :
  activity_to_dict a = Ok d →
  (attr, zero) ∈ [("distance", JFloat float_zero); ("moving_time", JInt 0);
                  ("elapsed_time", JInt 0)] →
  act_attrs a !! attr = None ∨
  (∃ v, act_attrs a !! attr = Some v ∧ py_bool v = Ok false) →
  d !! attr = Some zero.
Proof.
  intros Hconv Hattr Hfalsy. unfold activity_to_dict in Hconv.
  destruct (full_dict a) as [d'|e] eqn:Hfull.
  - injection Hconv as <-.
    destruct (full_dict_core a d' attr Hfull) as (d0 & Hbase & ->).
    { repeat (apply elem_of_cons in Hattr as [[= -> ->]|Hattr]);
        [closed_notin..|by apply elem_of_nil in Hattr]. }
    unfold base_dict in Hbase. bind_inv Hbase. injection Hbase as <-.
    repeat (apply elem_of_cons in Hattr as [[= -> ->]|Hattr]);
      [..|by apply elem_of_nil in Hattr].
    + rewrite (core_number_falsy _ _ _ _ Hfalsy) in Hstep3.
      injection Hstep3 as <-. by simplify_map_eq.
    + rewrite (core_number_falsy _ _ _ _ Hfalsy) in Hstep4.
      injection Hstep4 as <-. by simplify_map_eq.
    + rewrite (core_number_falsy _ _ _ _ Hfalsy) in Hstep5.
      injection Hstep5 as <-. by simplify_map_eq.
  - unfold minimal_dict in Hconv. bind_inv Hconv. injection Hconv as <-.
    repeat (apply elem_of_cons in Hattr as [[= -> ->]|Hattr]);
      [by simplify_map_eq..|by apply elem_of_nil in Hattr].
Qed.

Lemma falsy_core_numbers_witness :
  let a :=
    Samples.with_attr "distance" PyNone
      (Samples.with_attr "moving_time" (Samples.int_obj 0)
         (Samples.bare 10 "2024-01-02")) in
  ∃ d : record,
    activity_to_dict a = Ok d ∧
    d !! "distance" = Some (JFloat float_zero) ∧
    d !! "moving_time" = Some (JInt 0) ∧
    d !! "elapsed_time" = Some (JInt 0).
Proof.
  intros a.
  destruct (activity_to_dict_ok a) as [d Hd]; [reflexivity|].
  exists d. split; [exact Hd|]. split; [|split].
  - apply (falsy_core_numbers a d "distance" _ Hd); [by left|].
    right. exists PyNone. split; reflexivity.
  - apply (falsy_core_numbers a d "moving_time" _ Hd); [right; by left|].
    right. exists (Samples.int_obj 0). split; reflexivity.
  - apply (falsy_core_numbers a d "elapsed_time" _ Hd);
      [right; right; by left|].
    left. reflexivity.
Defined.

(** ** More on the authorization flow *)

(** X18. The credentials file is written on success only: a flow that
    returns has written the tokens it got for the code taken from the
    queue, and a flow that raises, wherever it raises, has left the file
    as it was. *)
Theorem credentials_written_on_success cfg w creds :
  let run := Authorize.main cfg w (starting creds) in
  match run.2 with
  | Ok _ =>
      ∃ code t,
        Authorize.queue_get w 60 = Some code ∧
        Authorize.exchange_code_for_token w (CLIENT_ID cfg)
          (CLIENT_SECRET cfg) code = Ok t ∧
        Authorize.credentials run.1 = update_env_file creds t
  | Raise _ => Authorize.credentials run.1 = creds
  end.
Proof.
  unfold Authorize.main, Authorize.try_finally, Authorize.create_local_server,
    Authorize.wait_for_code, Authorize.write_credentials, Authorize.call,
    Authorize.stop_server, mbind, Authorize.flow_bind.
  destruct (negb _); [done|].
  destruct (Authorize.bind_port w _); simpl; [|done].
  destruct (Authorize.authorization_url w _ _); simpl; [|done].
  destruct (Authorize.webbrowser_open w _); simpl; [|done].
  destruct (Authorize.queue_get w _) as [code|]; simpl; [|done].
  destruct (Authorize.exchange_code_for_token w _ _ _) as [t|] eqn:Ht;
    simpl; [|done].
  by exists code, t.
Qed.

(** X19. After a flow that returns, the credentials file holds the
    exchanged tokens: provided every line read from the old file ended
    with a line ending and the tokens hold none, the file has the line
    [ACCESS_TOKEN=] with the new access token, every line that starts
    with [ACCESS_TOKEN=] is that line, and the same for
    [REFRESH_TOKEN=]. *)
Theorem authorized_tokens_stored cfg w creds :
  Forall (λ line, complete line = true) (lines_of creds) →
  (∀ code t,
     Authorize.exchange_code_for_token w (CLIENT_ID cfg) (CLIENT_SECRET cfg)
       code = Ok t →
     no_newline (access_token t) = true ∧
     no_newline (refresh_token t) = true) →
  is_ok (Authorize.main cfg w (starting creds)).2 = true →
  ∃ code t text,
    Authorize.queue_get w 60 = Some code ∧
    Authorize.exchange_code_for_token w (CLIENT_ID cfg) (CLIENT_SECRET cfg)
      code = Ok t ∧
    Authorize.credentials (Authorize.main cfg w (starting creds)).1
      = Some text ∧
    access_line t ∈ readlines text ∧
    (∀ line, line ∈ readlines text → is_access line = true →
             line = access_line t) ∧
    refresh_line t ∈ readlines text ∧
    (∀ line, line ∈ readlines text → is_refresh line = true →
             line = refresh_line t).
Proof.
  intros Hlines Htokens.
  unfold Authorize.main, Authorize.try_finally, Authorize.create_local_server,
    Authorize.wait_for_code, Authorize.write_credentials, Authorize.call,
    Authorize.stop_server, mbind, Authorize.flow_bind.
  destruct (negb _); [done|].
  destruct (Authorize.bind_port w _); simpl; [|done].
  destruct (Authorize.authorization_url w _ _); simpl; [|done].
  destruct (Authorize.webbrowser_open w _); simpl; [|done].
  destruct (Authorize.queue_get w _) as [code|]; simpl; [|done].
  destruct (Authorize.exchange_code_for_token w _ _ _) as [t|] eqn:Ht;
    simpl; [|done].
  intros _. destruct (Htokens code t Ht) as [Ha Hr].
  exists code, t, (writelines (updated_lines t (lines_of creds))).
  split; [done|]. split; [done|]. split; [done|].
  rewrite (update_env_file_lines creds t Hlines Ha Hr).
  split; [apply access_line_written|]. split; [apply only_access_line|].
  split; [apply refresh_line_written|apply only_refresh_line].
Qed.

Lemma authorized_tokens_stored_witness :
  let answering :=
    {| Authorize.bind_port := λ _, Ok ();
       Authorize.authorization_url := λ _ redirect, Ok redirect;
       Authorize.webbrowser_open := λ _, Ok ();
       Authorize.queue_get := λ _, Some "code";
       Authorize.exchange_code_for_token := λ _ _ _, Ok Samples.tokens |} in
  let creds :=
    Some ("CLIENT_ID=42" +:+ nl +:+ "ACCESS_TOKEN=old" +:+ nl) in
  ∃ text,
    Authorize.credentials (Authorize.main Samples.cfg answering
                             (starting creds)).1 = Some text ∧
    ("ACCESS_TOKEN=a1" +:+ nl) ∈ readlines text ∧
    ("ACCESS_TOKEN=old" +:+ nl) ∉ readlines text.
Proof.
  intros answering creds.
  destruct (authorized_tokens_stored Samples.cfg answering creds)
    as (code & t & text & _ & Ht & Hcreds & Hacc & Honly & _).
  - repeat constructor.
  - intros code t [= <-]. split; reflexivity.
  - reflexivity.
  - injection Ht as <-. exists text.
    split; [exact Hcreds|]. split; [exact Hacc|].
    intros Hold. by specialize (Honly _ Hold eq_refl).
Defined.

(** X20. A flow that cannot start changes nothing: without a client id
    or a client secret it raises [ValueError] before a listener exists,
    and when the port cannot be bound it raises what the bind raised,
    with no listener running and no handle to stop. *)
Theorem flow_stops_before_listening cfg w creds e :
  (truthy (CLIENT_ID cfg) && truthy (CLIENT_SECRET cfg) = false
   ∧ e = ValueError) ∨
  (truthy (CLIENT_ID cfg) && truthy (CLIENT_SECRET cfg) = true
   ∧ Authorize.bind_port w 8000 = Raise e) →
  Authorize.main cfg w (starting creds) = (starting creds, Raise e).
Proof.
  unfold Authorize.main, Authorize.try_finally, Authorize.create_local_server,
    Authorize.call, Authorize.stop_server, mbind, Authorize.flow_bind.
  intros [[-> ->]|[-> Hbind]]; simpl; [done|]. by rewrite Hbind.
Qed.

Lemma flow_stops_before_listening_witness :
  let busy :=
    {| Authorize.bind_port := λ _, Raise OtherError;
       Authorize.authorization_url := λ _ redirect, Ok redirect;
       Authorize.webbrowser_open := λ _, Ok ();
       Authorize.queue_get := λ _, Some "code";
       Authorize.exchange_code_for_token := λ _ _ _, Ok Samples.tokens |} in
  Authorize.main Samples.cfg busy (starting None)
    = (starting None, Raise OtherError).
Proof.
  intros busy.
  apply (flow_stops_before_listening Samples.cfg busy None OtherError).
  right. split; reflexivity.
Defined.

(** ** The request handler *)

Lemma do_GET_queue items request :
  OAuthHandler.queue (OAuthHandler.do_GET (Some items) request)
    = Some (items ++ from_option (λ code, [code]) [] (first_code request)).
Proof.
  unfold OAuthHandler.do_GET, first_code.
  destruct (request !! "code") as [[|code codes]|]; simpl;
    by rewrite ?app_nil_r.
Qed.

(** X21. Served with a queue, the handler puts on it the first value of
    [code] of every request that has one, in the order of the requests,
    and nothing else; the waiting flow, which takes one item, gets the
    code of the earliest such request.  Served without a queue it puts
    nothing.  Every request gets the same page with status 200. *)
Theorem handler_collects_codes items requests :
  OAuthHandler.serve (Some items) requests
    = Some (items ++ omap first_code requests) ∧
  OAuthHandler.serve None requests = None ∧
  ∀ q request request',
    OAuthHandler.sent (OAuthHandler.do_GET q request)
      = OAuthHandler.sent (OAuthHandler.do_GET None request') ∧
    OAuthHandler.status (OAuthHandler.sent (OAuthHandler.do_GET q request))
      = 200%Z.
Proof.
  split; [|split].
  - revert items. unfold OAuthHandler.serve.
    induction requests as [|request requests IH]; intros items.
    + simpl. by rewrite app_nil_r.
    + cbn [foldl]. rewrite do_GET_queue, IH. csimpl.
      destruct (first_code request); simpl;
        by rewrite <- ?app_assoc, ?app_nil_r.
  - unfold OAuthHandler.serve.
    induction requests as [|request requests IH]; [done|]. simpl. exact IH.
  - intros q request request'. unfold OAuthHandler.do_GET.
    destruct q as [items'|]; [|done].
    by destruct (request !! "code") as [[|code codes]|].
Qed.

(** ** The order of records with the same start date *)

Lemma SFcompare_refl f : SFcompare f f = None ∨ SFcompare f f = Some Eq.
Proof.
  destruct f as [s|s| |s m e]; simpl; [by right| |by left|].
  - right. by destruct s.
  - right. rewrite Z.compare_refl, Pos.compare_cont_refl. by destruct s.
Qed.

(** [a < a] is never true. *)
Lemma py_lt_neq a b : py_lt a b = Ok true → a ≠ b.
Proof.
  intros Hlt ->. destruct b as [|b|n|f|s]; simpl in Hlt.
  - done.
  - unfold py_compare_num in Hlt. by rewrite Z.compare_refl in Hlt.
  - unfold py_compare_num in Hlt. by rewrite Z.compare_refl in Hlt.
  - unfold py_compare_num in Hlt.
    by destruct (SFcompare_refl f) as [Hc|Hc]; rewrite Hc in Hlt.
  - injection Hlt as Hlt. unfold String.ltb in Hlt.
    pose proof (String.compare_antisym s s) as Hanti.
    by destruct (String.compare s s).
Qed.

Lemma py_insert_stable {A} (key : A → json) k x l l' :
  py_insert key x l = Ok l' →
  filter (λ z, key z = k) l' = filter (λ z, key z = k) (x :: l).
Proof.
  revert l'. induction l as [|y l IH]; intros l'; simpl.
  - by intros [= <-].
  - intros H. bind_inv H. destruct a.
    + bind_inv H. injection H as <-.
      apply py_lt_neq in Hstep.
      rewrite filter_cons, (IH _ Hstep0), !filter_cons.
      repeat case_decide; congruence.
    + by injection H as <-.
Qed.

(** The sort is stable: elements with the same key stay in their order. *)
Lemma py_sort_stable {A} (key : A → json) k l l' :
  py_sort key l = Ok l' →
  filter (λ z, key z = k) l' = filter (λ z, key z = k) l.
Proof.
  revert l'. induction l as [|x l IH]; intros l'; simpl.
  - by intros [= <-].
  - intros H. bind_inv H.
    rewrite (py_insert_stable key k _ _ _ H), !filter_cons, (IH _ Hstep).
    done.
Qed.

(** X22. Records with the same [start_date_local] are saved in the order
    in which the run holds them: the stored ones first, in the order of
    the file, then the new ones in the order fetched.  With the sort
    invariant this fixes the saved sequence. *)
Theorem saved_order_stable cfg args c fs :
  (main cfg args c fs).2 = Updated →
  ∃ existing fetched l,
    (if full_refresh args then Ok []
     else load_existing_activities (activities_file fs)) = Ok existing ∧
    fetches cfg args c fetched ∧
    activities_file (main cfg args c fs).1 = JsonArray l ∧
    ∀ k, filter (λ r, sort_key r = k) l =
         filter (λ r, sort_key r = k)
           (existing ++ collect_new (existing_ids existing) fetched).
Proof.
  intros (fetched & l & Hfetch & Hmerge & Hfile)%main_updated.
  destruct (full_refresh args).
  - exists [], fetched, l. split; [done|]. split; [done|]. split; [done|].
    intros k. rewrite process_full, <- collect_new_all in Hmerge.
    apply fmap_Ok in Hmerge as (l' & Hsort & [= ->]).
    by apply py_sort_stable.
  - apply process_loaded in Hmerge as (existing & Hload & Hmerge).
    simpl in Hmerge.
    exists existing, fetched, l.
    split; [done|]. split; [done|]. split; [done|]. intros k.
    destruct (collect_new _ fetched) as [|d new] eqn:Hnew; [done|].
    apply fmap_Ok in Hmerge as (l' & Hsort & [= ->]).
    by apply py_sort_stable.
Qed.

Lemma saved_order_stable_witness :
  let store :=
    {| env_file := None;
       activities_file :=
         JsonArray [Samples.stored 5 "2024-01-01";
                    Samples.stored 4 "2024-01-01"] |} in
  let fetched := [Samples.bare 9 "2024-01-01"; Samples.bare 1 "2024-01-01"] in
  let run :=
    main Samples.cfg Samples.incremental (Samples.serving fetched) store in
  (∃ l, activities_file run.1 = JsonArray l) ∧
  existing_ids <$> load_existing_activities (activities_file run.1)
    = Ok [JInt 5; JInt 4; JInt 9; JInt 1].
Proof.
  intros store fetched run. split; [|vm_compute; reflexivity].
  destruct (saved_order_stable Samples.cfg Samples.incremental
              (Samples.serving fetched) store)
    as (existing & fetched' & l & _ & _ & Hfile & _).
  - vm_compute. reflexivity.
  - exists l. exact Hfile.
Defined.
